(** * powerengine: the tick engine, the block variants and persistence

    A shallow embedding of [src/powerengine/__init__.py].

    Conventions of the embedding.
    - A coordinate is an integer triple ([tuple[int]] indexed at 0, 1, 2).
    - A block state is a Python [dict] with string keys: [gmap string value].
    - [Engine.blocks] is an insertion-ordered [dict]: an association list
      with one entry per key, scanned in order by [tick_ahead].
    - Objects stored in [Engine.blocks] are mutated in place by their own
      [update]; a reference to a stored object is the key it is stored
      under ([add_blocks] stores every block under its own [coords]).
    - [update] can raise; the outcome of a call carries the object and the
      engine as they are at that moment, because mutation is in place.
    - [uuid.uuid4] is a source of tokens that never repeats: a counter.
    - [Block.__init__] keeps the [dict] it is given ([self.state = state]).
      The embedding gives every block a state of its own: it models the
      worlds in which every block was built from its own [dict]. Two
      blocks built from one [dict] object would see each other's writes
      to ['signal'] and ['timer'], which the embedding does not express. *)

From Stdlib Require Import ZArith List Lia Bool.
From stdpp Require Import base option list gmap strings.

Open Scope Z_scope.

(** ** Python values and exceptions *)

#[warnings="-register-all"]
Inductive value : Type :=
| VNone
| VInt (z : Z)
| VStr (s : string)
| VList (l : list value).

Inductive exn : Type :=
| KeyError
| TypeError
| IndexError
| VersionError        (* [Exception("Unknown version!")] *)
| FileNotFoundError.

(** [bool(v)] *)
Definition truthy (v : value) : bool :=
  match v with
  | VNone => false
  | VInt z => negb (z =? 0)
  | VStr s => negb (String.eqb s "")
  | VList l => match l with [] => false | _ => true end
  end.

(** [d.get(k)] yields [None] on a missing key. *)
Definition dict_get (d : gmap string value) (k : string) : value :=
  default VNone (d !! k).

(** ** Block types and blocks *)

(** The tags of [BlockType] that a class carries ([LEVER] has none). *)
Inductive BlockType : Type := WIRE | POWER | DELAYER | AIR.

Definition BlockType_eqb (a b : BlockType) : bool :=
  match a, b with
  | WIRE, WIRE | POWER, POWER | DELAYER, DELAYER | AIR, AIR => true
  | _, _ => false
  end.

Definition coords : Type := (Z * Z * Z)%type.

Definition coords_eqb (a b : coords) : bool :=
  let '(a0, a1, a2) := a in
  let '(b0, b1, b2) := b in
  (a0 =? b0) && (a1 =? b1) && (a2 =? b2).

Record Block : Type := mkBlock {
  id : BlockType;                 (* the class of the object and its tag *)
  state : gmap string value;
  bcoords : coords;               (* [self.coords] *)
  last_updated : Z;
  gid : nat                       (* [str(uuid.uuid4())] *)
}.

(** [Block.__eq__]: same concrete type and same identity token. *)
Definition Block_eq (a b : Block) : bool :=
  BlockType_eqb (id a) (id b) && Nat.eqb (gid a) (gid b).

Definition set_state (b : Block) (s : gmap string value) : Block :=
  mkBlock (id b) s (bcoords b) (last_updated b) (gid b).

Definition set_last_updated (b : Block) (t : Z) : Block :=
  mkBlock (id b) (state b) (bcoords b) t (gid b).

(** ** The engine *)

Record Engine : Type := mkEngine {
  tick : Z;
  blocks : list (coords * Block);
  update_buffer : list coords;    (* a set of references to stored blocks *)
  uuid_next : nat                 (* the next token [uuid4] hands out *)
}.

Definition VERSION : list Z := [1; 0; 0].

Fixpoint assoc_get (l : list (coords * Block)) (c : coords) : option Block :=
  match l with
  | [] => None
  | (k, b) :: r => if coords_eqb k c then Some b else assoc_get r c
  end.

(** In-place mutation of the object stored under [c]. *)
Fixpoint assoc_set (l : list (coords * Block)) (c : coords) (b : Block)
  : list (coords * Block) :=
  match l with
  | [] => []
  | (k, b0) :: r =>
      if coords_eqb k c then (k, b) :: r else (k, b0) :: assoc_set r c b
  end.

(** [dict.update] with one entry: overwrite in place or append. *)
Fixpoint assoc_put (l : list (coords * Block)) (c : coords) (b : Block)
  : list (coords * Block) :=
  match l with
  | [] => [(c, b)]
  | (k, b0) :: r =>
      if coords_eqb k c then (k, b) :: r else (k, b0) :: assoc_put r c b
  end.

Definition with_blocks (e : Engine) (bl : list (coords * Block)) : Engine :=
  mkEngine (tick e) bl (update_buffer e) (uuid_next e).

Definition with_buffer (e : Engine) (buf : list coords) : Engine :=
  mkEngine (tick e) (blocks e) buf (uuid_next e).

Definition with_tick (e : Engine) (t : Z) : Engine :=
  mkEngine t (blocks e) (update_buffer e) (uuid_next e).

(** [Air(engine, {}, coords)]: [Block.__init__] followed by [Air.update],
    which is [pass]. One token is drawn from the uuid source. *)
Definition new_Air (e : Engine) (c : coords) : Block * Engine :=
  (mkBlock AIR ∅ c (tick e - 1) (uuid_next e),
   mkEngine (tick e) (blocks e) (update_buffer e) (S (uuid_next e))).

(** [Engine.get_block]: the default argument of [dict.get] is evaluated
    before the lookup, so an [Air] is built on every call. *)
Definition get_block (e : Engine) (c : coords) : Block * Engine :=
  let '(air, e') := new_Air e c in
  (default air (assoc_get (blocks e') c), e').

(** [Engine.schedule_update]: [set.add], where membership is [__eq__].
    [ref] is the key the block was fetched under: the reference that the
    set keeps to the stored object. *)
Definition buffer_mem (e : Engine) (b : Block) : bool :=
  existsb (fun r => match assoc_get (blocks e) r with
                    | Some b' => Block_eq b' b
                    | None => false
                    end) (update_buffer e).

Definition schedule_update (e : Engine) (ref : coords) (b : Block) : Engine :=
  if buffer_mem e b then e
  else with_buffer e (update_buffer e ++ [ref]).

(** [Engine.add_blocks] *)
Definition add_blocks (e : Engine) (bs : list Block) : Engine :=
  with_blocks e (fold_left (fun l b => assoc_put l (bcoords b) b) bs (blocks e)).

(** ** Pure computations that can raise *)

Inductive res (A : Type) : Type :=
| Val (a : A)
| Err (x : exn).
Arguments Val {A} a.
Arguments Err {A} x.

Definition res_bind {A B} (m : res A) (k : A -> res B) : res B :=
  match m with
  | Val a => k a
  | Err x => Err x
  end.

Notation "'letr' x <~ m 'in' k" := (res_bind m (fun x => k))
  (at level 10, x name, m at level 100, k at level 200).

Fixpoint res_map {A B} (f : A -> res B) (l : list A) : res (list B) :=
  match l with
  | [] => Val []
  | a :: r => letr b <~ f a in letr bs <~ res_map f r in Val (b :: bs)
  end.

(** [v - k] and [v + k] for an [int] operand [k] *)
Definition add_int (v : value) (k : Z) : res Z :=
  match v with
  | VInt z => Val (z + k)
  | _ => Err TypeError
  end.

(** [v[n]] *)
Definition index (v : value) (n : nat) : res value :=
  match v with
  | VList l => match l !! n with Some x => Val x | None => Err IndexError end
  | VStr s => match String.get n s with
              | Some ch => Val (VStr (String ch EmptyString))
              | None => Err IndexError
              end
  | _ => Err TypeError
  end.

(** ** Utils *)

Definition ALL : list value :=
  [VStr "north"; VStr "south"; VStr "east"; VStr "west"].

(** The dict literal of [__get_surrounding_block(s)] indexed by [k]. *)
Definition direction_lookup (c : coords) (k : value) : res coords :=
  let '(x, y, z) := c in
  match k with
  | VStr s =>
      if String.eqb s "north" then Val (x + 1, y, z)
      else if String.eqb s "south" then Val (x - 1, y, z)
      else if String.eqb s "west" then Val (x, y, z + 1)
      else if String.eqb s "east" then Val (x, y, z - 1)
      else Err KeyError
  | VList _ => Err TypeError          (* unhashable key *)
  | _ => Err KeyError
  end.

(** [Utils.get_surrounding_block(coords, direction)] *)
Definition get_surrounding_block (c : coords) (direction : value)
  : res (list coords) :=
  match (if truthy direction then direction else VList ALL) with
  | VList l => res_map (direction_lookup c) l
  | _ => letr x <~ direction_lookup c direction in Val [x]
  end.

(** [Utils.get_surrounding_block(v)] as [Delayer.update] calls it: the
    single argument lands in [coords], [direction] is [None], and the dict
    literal indexes and offsets [v] itself. The entries of the literal are
    built in the order north, south, west, east; the generator yields
    north, south, east, west. *)
Definition get_surrounding_block_of_value (v : value)
  : res (list (value * value * value)) :=
  letr a0 <~ index v 0 in
  letr n <~ add_int a0 1 in
  letr a1 <~ index v 1 in
  letr a2 <~ index v 2 in
  letr s <~ add_int a0 (-1) in
  letr w <~ add_int a2 1 in
  letr e <~ add_int a2 (-1) in
  Val [(VInt n, a1, a2); (VInt s, a1, a2); (a0, a1, VInt e); (a0, a1, VInt w)].

Definition int_is (v : value) (z : Z) : bool :=
  match v with
  | VInt z' => z' =? z
  | _ => false
  end.

(** [self.coords == t] for a tuple [t] of three values *)
Definition coords_eq_tuple (c : coords) (t : value * value * value) : bool :=
  let '(x, y, z) := c in
  let '(t0, t1, t2) := t in
  int_is t0 x && int_is t1 y && int_is t2 z.

Definition opposite (k : value) : res string :=
  match k with
  | VStr s =>
      if String.eqb s "north" then Val "south"%string
      else if String.eqb s "south" then Val "north"%string
      else if String.eqb s "east" then Val "west"%string
      else if String.eqb s "west" then Val "east"%string
      else Err KeyError
  | VList _ => Err TypeError
  | _ => Err KeyError
  end.

(** ** Block updates

    An [update] runs on the object [self] and on the engine. It ends by
    returning or by raising; either way the caller sees [self] and the
    engine as the call left them. *)

Inductive outcome : Type :=
| Returned (self : Block) (e : Engine)
| Raised (x : exn) (self : Block) (e : Engine).

(** [Air.update]: [pass] *)
Definition Air_update (self : Block) (e : Engine) : outcome :=
  Returned self e.

(** The test of [Wire.update] that makes the loop [continue]: the
    neighbour has a truthy ['facing'] and the wire is not where that
    facing lets it be. *)
Definition Wire_skips (self block : Block) : res bool :=
  let f := dict_get (state block) "facing" in
  if truthy f then
    match f with
    | VStr _ =>
        letr o <~ opposite f in
        letr l <~ get_surrounding_block (bcoords block) (VList [VStr o]) in
        Val (negb (existsb (coords_eqb (bcoords self)) l))
    | VList _ =>
        letr l <~ get_surrounding_block (bcoords block) f in
        Val (negb (existsb (coords_eqb (bcoords self)) l))
    | _ => Val false
    end
  else Val false.

(** [self.state['signal']] read back as an [int] operand of [max] *)
Definition own_signal (self : Block) : res Z :=
  match state self !! "signal" with
  | Some (VInt z) => Val z
  | Some _ => Err TypeError
  | None => Err KeyError
  end.

(** The body of the [for] loop of [Wire.update], over the coordinates
    still to visit. *)
Fixpoint Wire_loop (ns : list coords) (self : Block) (e : Engine) : outcome :=
  match ns with
  | [] => Returned (set_last_updated self (tick e)) e
  | i :: rest =>
      let '(block, e1) := get_block e i in
      let e2 :=
        if (last_updated block <=? last_updated self)
           && negb (BlockType_eqb (id block) AIR)
        then schedule_update e1 i block else e1 in
      match Wire_skips self block with
      | Err x => Raised x self e2
      | Val true => Wire_loop rest self e2
      | Val false =>
          match (letr s <~ add_int (default (VInt 0) (state block !! "signal")) (-1) in
                 letr own <~ own_signal self in
                 Val (Z.max s own)) with
          | Err x => Raised x self e2
          | Val m =>
              Wire_loop rest
                (set_state self (<["signal" := VInt m]> (state self))) e2
          end
      end
  end.

(** [Wire.update] *)
Definition Wire_update (self : Block) (e : Engine) : outcome :=
  let self1 := set_state self (<["signal" := VInt 0]> (state self)) in
  match state self1 !! "facing" with
  | None => Raised KeyError self1 e
  | Some f =>
      match get_surrounding_block (bcoords self1) f with
      | Err x => Raised x self1 e
      | Val ns => Wire_loop ns self1 e
      end
  end.

(** The test shared by [Power.update] and [Delayer.update] before they
    schedule a neighbour. *)
Definition schedule_if_stale (e : Engine) (ref : coords) (block : Block)
  : Engine :=
  if negb (last_updated block =? tick e) && negb (BlockType_eqb (id block) AIR)
  then schedule_update e ref block else e.

Fixpoint Power_loop (ns : list coords) (e : Engine) : Engine :=
  match ns with
  | [] => e
  | i :: rest =>
      let '(block, e1) := get_block e i in
      Power_loop rest (schedule_if_stale e1 i block)
  end.

(** [Power.update] *)
Definition Power_update (self : Block) (e : Engine) : outcome :=
  match get_surrounding_block (bcoords self) VNone with
  | Err x => Raised x self e
  | Val ns =>
      let e' := Power_loop ns e in
      Returned (set_last_updated self (tick e')) e'
  end.

(** The guard of [Delayer.update] that makes it [return] early. *)
Definition Delayer_disallowed (self neighbour : Block) : res bool :=
  let f := dict_get (state neighbour) "facing" in
  if truthy f then
    letr l <~ get_surrounding_block_of_value f in
    Val (negb (existsb (coords_eq_tuple (bcoords self)) l))
  else Val false.

Definition Delayer_blocked (self input_block output_block : Block) : res bool :=
  letr a <~ Delayer_disallowed self input_block in
  if a then Val true else Delayer_disallowed self output_block.

(** The state that the [if]/[else] on the input signal leaves. *)
Definition Delayer_step (self input_block : Block) : res (gmap string value) :=
  if truthy (dict_get (state input_block) "signal") then
    let t := dict_get (state self) "timer" in
    letr v <~ (if truthy t then letr z <~ add_int t (-1) in Val (VInt z)
               else match state self !! "delay" with
                    | Some d => Val d
                    | None => Err KeyError
                    end) in
    letr m <~ (match v with
               | VInt z => Val (Z.max z 0)
               | _ => Err TypeError
               end) in
    let st := <["timer" := VInt m]> (state self) in
    Val (if m =? 0 then <["signal" := VInt 16]> st else st)
  else Val (<["signal" := VInt 0]> (delete "timer" (state self))).

Definition first {A} (l : list A) : res A :=
  match l with
  | x :: _ => Val x
  | [] => Err IndexError
  end.

(** [input_coords] and [output_coords] of [Delayer.update] *)
Definition Delayer_ports (self : Block) : res (coords * coords) :=
  letr f <~ (match state self !! "facing" with
             | Some f => Val f
             | None => Err KeyError
             end) in
  letr ins <~ get_surrounding_block (bcoords self) f in
  letr ic <~ first ins in
  letr o <~ opposite f in
  letr outs <~ get_surrounding_block (bcoords self) (VStr o) in
  letr oc <~ first outs in
  Val (ic, oc).

(** [Delayer.update] *)
Definition Delayer_update (self : Block) (e : Engine) : outcome :=
  match Delayer_ports self with
  | Err x => Raised x self e
  | Val (ic, oc) =>
      let '(input_block, e1) := get_block e ic in
      let '(output_block, e2) := get_block e1 oc in
      match Delayer_blocked self input_block output_block with
      | Err x => Raised x self e2
      | Val true => Returned self e2
      | Val false =>
          match Delayer_step self input_block with
          | Err x => Raised x self e2
          | Val st =>
              let e3 := schedule_if_stale e2 ic input_block in
              let e4 := schedule_if_stale e3 oc output_block in
              Returned (set_last_updated (set_state self st) (tick e4)) e4
          end
      end
  end.

(** Dispatch of [block.update(engine)] on the class of the object. *)
Definition update (self : Block) (e : Engine) : outcome :=
  match id self with
  | AIR => Air_update self e
  | WIRE => Wire_update self e
  | POWER => Power_update self e
  | DELAYER => Delayer_update self e
  end.

(** [Block.__init__], and [Power.__init__] on top of it. *)
Definition Block_init (ty : BlockType) (e : Engine)
    (st : gmap string value) (c : coords) : outcome :=
  update (mkBlock ty st c (tick e - 1) (uuid_next e))
         (mkEngine (tick e) (blocks e) (update_buffer e) (S (uuid_next e))).

Definition Power_init (e : Engine) (st : gmap string value) (c : coords)
  : outcome :=
  match Block_init POWER e st c with
  | Returned self e' =>
      Returned (set_state self (<["signal" := VInt 16]> (state self))) e'
  | Raised x self e' => Raised x self e'
  end.

(** ** The tick

    [set.pop] removes an arbitrary element: which one is a parameter.
    The [while self.update_buffer] loop need not end, so it runs on fuel.
    [log] records, in order, the reference of every block whose [update]
    was invoked. *)

Inductive run : Type :=
| Finished (e : Engine) (log : list coords)
| Crashed (x : exn) (e : Engine) (log : list coords)
| OutOfFuel.

Section Tick.

Variable pop_index : list coords -> nat.

Definition pop (buf : list coords) : option (coords * list coords) :=
  let i := (pop_index buf mod length buf)%nat in
  match buf !! i with
  | Some r => Some (r, delete i buf)
  | None => None
  end.

(** [while self.update_buffer: self.update_buffer.pop().update(self)] *)
Fixpoint drain (fuel : nat) (e : Engine) (log : list coords) : run :=
  match pop (update_buffer e) with
  | None => Finished e log
  | Some (r, rest) =>
      match fuel with
      | O => OutOfFuel
      | S fuel' =>
          let e0 := with_buffer e rest in
          match assoc_get (blocks e0) r with
          | None => drain fuel' e0 log
          | Some b =>
              match update b e0 with
              | Returned b' e1 =>
                  drain fuel' (with_blocks e1 (assoc_set (blocks e1) r b'))
                        (log ++ [r])
              | Raised x b' e1 =>
                  Crashed x (with_blocks e1 (assoc_set (blocks e1) r b'))
                          (log ++ [r])
              end
          end
      end
  end.

(** The outer [while True] of [tick_ahead]: the chained [filter]
    objects share one iterator over [self.blocks.values()], so the scan
    goes on from where it stopped; [keys] are the entries not yet
    reached. *)
Fixpoint scan (fuel : nat) (keys : list coords) (e : Engine)
    (log : list coords) : run :=
  match keys with
  | [] => Finished (with_tick e (tick e + 1)) log
  | k :: ks =>
      match assoc_get (blocks e) k with
      | None => scan fuel ks e log
      | Some b =>
          if last_updated b =? tick e then scan fuel ks e log
          else
            match drain fuel (with_buffer e [k]) log with
            | Finished e' log' => scan fuel ks e' log'
            | Crashed x e' log' => Crashed x e' log'
            | OutOfFuel => OutOfFuel
            end
      end
  end.

(** [Engine.tick_ahead] *)
Definition tick_ahead (fuel : nat) (e : Engine) : run :=
  scan fuel (map fst (blocks e)) e [].

End Tick.

(** ** Persistence

    A file holds the pickled tuple [(version, blocks, tick)]; the file
    system maps paths to what was dumped. Plugins are not loaded
    ([load_plugins=False]). *)

Record payload : Type := mkPayload {
  p_version : list Z;
  p_blocks : list (coords * Block);
  p_tick : Z
}.

(** [a > b] on tuples of integers *)
Fixpoint tuple_gt (a b : list Z) : bool :=
  match a, b with
  | [], _ => false
  | _ :: _, [] => true
  | x :: a', y :: b' =>
      if x =? y then tuple_gt a' b' else y <? x
  end.

(** [Engine.save] *)
Definition save (e : Engine) (file : string) (fs : gmap string payload)
  : gmap string payload :=
  <[file := mkPayload VERSION (blocks e) (tick e)]> fs.

(** [Engine(load_plugins=False)] *)
Definition Engine_init (uuid : nat) : Engine := mkEngine 1 [] [] uuid.

(** The local variable [engine] when the body of [Engine.load] ends. *)
Definition load_local (file : string) (fs : gmap string payload) (uuid : nat)
  : res Engine :=
  match fs !! file with
  | None => Err FileNotFoundError
  | Some data =>
      if tuple_gt (p_version data) VERSION then Err VersionError
      else
        let engine := Engine_init uuid in
        Val (mkEngine (p_tick data) (p_blocks data)
                      (update_buffer engine) (uuid_next engine))
  end.

(** [Engine.load]: the body ends without a [return], the call yields
    [None]. *)
Definition load (file : string) (fs : gmap string payload) (uuid : nat)
  : res unit :=
  letr engine <~ load_local file fs uuid in Val tt.

(** ** Running ticks

    [Engine.run(ticks, output=False, ignore_speed=True)]: printing and
    pacing are left out. [while ticks] stops when the counter is 0, so a
    negative count never stops; the loop runs on fuel, and each
    [tick_ahead] gets the fuel that is left. *)

Section Run.

Variable pop_index : list coords -> nat.

Fixpoint Engine_run (fuel : nat) (ticks : Z) (e : Engine) (log : list coords)
  : run :=
  if ticks =? 0 then Finished e log
  else
    match fuel with
    | O => OutOfFuel
    | S fuel' =>
        match tick_ahead pop_index fuel' e with
        | Finished e' log' => Engine_run fuel' (ticks - 1) e' (log ++ log')
        | Crashed x e' log' => Crashed x e' (log ++ log')
        | OutOfFuel => OutOfFuel
        end
    end.

End Run.

(** [Block.__hash__]: the hash of the identity token; [hash_str] stands
    for the hash of strings of the running interpreter. *)
Definition Block_hash (hash_str : nat -> Z) (b : Block) : Z :=
  hash_str (gid b).

(** ** Vocabulary of the properties *)

(** What [Power.update] and [Delayer.update] require of a neighbour to
    schedule it. *)
Definition stale (e : Engine) (b : Block) : Prop :=
  last_updated b <> tick e /\ id b <> AIR.

(** The four positions north, south, east and west of [c], in the order
    [Utils.get_surrounding_block(c)] yields them. *)
Definition cardinal (c : coords) : list coords :=
  let '(x, y, z) := c in
  [(x + 1, y, z); (x - 1, y, z); (x, y, z - 1); (x, y, z + 1)].

(** ** Runs of a delayer *)

(** [input_block] and [output_block] as [Delayer.update] fetches them. *)
Definition Delayer_neighbours (self : Block) (e : Engine) : res (Block * Block) :=
  letr p <~ Delayer_ports self in
  let '(input_block, e1) := get_block e p.1 in
  let '(output_block, _) := get_block e1 p.2 in
  Val (input_block, output_block).

(** In [e] the guard of the delayer lets the update through and the input
    neighbour carries a truthy signal ([fed]) or a falsy one ([unfed]). *)
Definition fed (self : Block) (e : Engine) : Prop :=
  exists i o, Delayer_neighbours self e = Val (i, o) /\
              Delayer_blocked self i o = Val false /\
              truthy (dict_get (state i) "signal") = true.


(** Successive calls of [update] on one delayer, the k-th against the
    k-th engine of [envs]; [None] when a call raises. *)
Fixpoint Delayer_updates (envs : list Engine) (self : Block) : option Block :=
  match envs with
  | [] => Some self
  | e :: rest =>
      match Delayer_update self e with
      | Returned self' _ => Delayer_updates rest self'
      | Raised _ _ _ => None
      end
  end.


(** ** The signal of a wire, in the words of the specification

    A neighbour has a facing restriction pointing away from the wire when
    it has a ['facing'] and the wire is not where that facing points: for
    a single direction, on the side opposite to it; for a list of
    directions, on one of the listed sides. *)
Definition on_side (wire neighbour : Block) (k : value) : bool :=
  match direction_lookup (bcoords neighbour) k with
  | Val c => coords_eqb (bcoords wire) c
  | Err _ => false
  end.

Definition points_away (wire neighbour : Block) : bool :=
  match dict_get (state neighbour) "facing" with
  | VStr s =>
      negb (String.eqb s "") &&
      match opposite (VStr s) with
      | Val o => negb (on_side wire neighbour (VStr o))
      | Err _ => true
      end
  | VList (d :: l) => negb (existsb (on_side wire neighbour) (d :: l))
  | _ => false
  end.

Definition signal_of (b : Block) : Z :=
  match state b !! "signal" with
  | Some (VInt z) => z
  | _ => 0
  end.

(** The maximum of [signal - 1] over the counted neighbours, floored at 0. *)
Definition spec_wire_signal (wire : Block) (neighbours : list Block) : Z :=
  fold_right Z.max 0
    (map (fun b => signal_of b - 1)
         (List.filter (fun b => negb (points_away wire b)) neighbours)).

(** [r] is a reference that the update of [b] in [e] may add to the
    pending set: a stored neighbour, not Air, that passes the test of
    [Power.update] and [Delayer.update] or the test of [Wire.update]. *)
Definition newly (b : Block) (e : Engine) (r : coords) : Prop :=
  r <> bcoords b /\
  exists nb, assoc_get (blocks e) r = Some nb /\ id nb <> AIR /\
    (last_updated nb <> tick e \/ last_updated nb <= last_updated b).

(** How many times [update] was invoked on the block stored under [r]. *)
Definition updates_of (log : list coords) (r : coords) : nat :=
  length (List.filter (coords_eqb r) log).

(** What holds of the block map while the tick that started in [e0] runs:
    the tick and the keys are those of [e0]; every block is stored under
    its own coordinates, is not ahead of the tick, and is stamped with the
    tick or is still the object as [e0] had it; a Wire or Power block was
    updated at most once, and not at all while it is not stamped. *)
Definition world_inv (e0 e : Engine) (log : list coords) : Prop :=
  tick e = tick e0 /\
  map fst (blocks e) = map fst (blocks e0) /\
  (forall k b, assoc_get (blocks e) k = Some b ->
     bcoords b = k /\ last_updated b <= tick e0 /\
     (last_updated b = tick e0 \/ assoc_get (blocks e0) k = Some b)) /\
  (forall r b, assoc_get (blocks e) r = Some b -> id b = WIRE \/ id b = POWER ->
     (updates_of log r <= 1)%nat /\
     (last_updated b <> tick e0 -> updates_of log r = 0%nat)).

(** What holds of the pending set: no reference twice, and every
    reference is to a stored block that is not yet stamped. *)
Definition buffer_inv (e : Engine) : Prop :=
  NoDup (update_buffer e) /\
  forall r, In r (update_buffer e) ->
    exists b, assoc_get (blocks e) r = Some b /\ last_updated b < tick e.

(** The block under [k] is stamped with the tick, or is of a class whose
    [update] can return without stamping. *)
Definition settled (e : Engine) (k : coords) : Prop :=
  forall b, assoc_get (blocks e) k = Some b ->
    last_updated b = tick e \/ id b = AIR \/ id b = DELAYER.

(** Every block is stored under its own coordinates, as [add_blocks]
    stores it, and none is stamped with a tick still to come. *)
Definition well_formed (e : Engine) : Prop :=
  forall k b, assoc_get (blocks e) k = Some b ->
    bcoords b = k /\ last_updated b <= tick e.

(** The number of entries of the block map not stamped with the tick. *)
Definition unstamped (e : Engine) : nat :=
  length (List.filter
            (fun k => match assoc_get (blocks e) k with
                      | Some b => negb (last_updated b =? tick e)
                      | None => false
                      end)
            (map fst (blocks e))).

(** A computation on fuel ends: from some amount of fuel on it yields one
    and the same result, which is not [OutOfFuel]. *)
Definition ends (f : nat -> run) : Prop :=
  exists fuel r, r <> OutOfFuel /\ forall fuel', (fuel <= fuel')%nat -> f fuel' = r.

(** Every stored block satisfies [P], which may look at the key. *)
Definition all_blocks (P : coords -> Block -> Prop) (e : Engine) : Prop :=
  forall k b, assoc_get (blocks e) k = Some b -> P k b.

(** The block has no signal, or an integer signal from 0 to 16. *)
Definition signal_in_range (b : Block) : Prop :=
  match state b !! "signal" with
  | None => True
  | Some (VInt z) => 0 <= z <= 16
  | Some _ => False
  end.

(** Every block of the world is stamped with the current tick. *)
Definition all_stamped (e : Engine) : Prop :=
  forall k b, assoc_get (blocks e) k = Some b -> last_updated b = tick e.

(** [k] is one of the four direction labels. *)
Definition known_direction (k : value) : Prop :=
  exists o, opposite k = Val o.

(** What an update never changes of the block it runs on: the class, the
    coordinates, the identity token, and every state entry except those
    under the keys of [keys]. *)
Definition same_but (keys : list string) (b b' : Block) : Prop :=
  id b' = id b /\ bcoords b' = bcoords b /\ gid b' = gid b /\
  forall key, ~ In key keys -> state b' !! key = state b !! key.

(** The countdown entry of a delayer is absent or an integer that is not
    negative. *)
Definition timer_ok (self : Block) : Prop :=
  match state self !! "timer" with
  | None => True
  | Some (VInt t) => 0 <= t
  | Some _ => False
  end.

(** The number of fed updates after which a delayer with delay [d] fires:
    what is left of a running countdown, or [d + 1] when none runs. *)
Definition remaining (self : Block) (d : Z) : Z :=
  match state self !! "timer" with
  | Some (VInt t) => if t =? 0 then d + 1 else t
  | _ => d + 1
  end.

(** ** The guard of a delayer, seen from the tick *)

(** The ['facing'] entry of what [get_block] yields for [c]; the guard of
    [Delayer.update] reads nothing else of a neighbour. *)
Definition facing_at (e : Engine) (c : coords) : value :=
  dict_get (state (get_block e c).1) "facing".

(** [self] is a Delayer and in [e] the guard of [Delayer.update] holds for
    it: the update takes the early [return], before anything is written. *)
Definition blocked (self : Block) (e : Engine) : Prop :=
  id self = DELAYER /\
  exists i o, Delayer_neighbours self e = Val (i, o) /\
              Delayer_blocked self i o = Val true.

(** What holds, block by block, while the tick that started in [e0] runs:
    every stored block is the block [e0] had there but for ['signal'] and
    ['timer']; a block that is neither Air nor a blocked Delayer was
    updated at most once, and not at all while it is not stamped; an Air
    block was updated at most once. *)
Definition history_inv (e0 e : Engine) (log : list coords) : Prop :=
  (forall k b, assoc_get (blocks e) k = Some b ->
     exists b0, assoc_get (blocks e0) k = Some b0 /\
                same_but ["signal"%string; "timer"%string] b0 b) /\
  (forall r b, assoc_get (blocks e) r = Some b ->
     id b <> AIR -> ~ blocked b e0 ->
     (updates_of log r <= 1)%nat /\
     (last_updated b <> tick e0 -> updates_of log r = 0%nat)) /\
  (forall r b, assoc_get (blocks e) r = Some b -> id b = AIR ->
     (updates_of log r <= 1)%nat).

(** No Air block stored under one of [keys] was updated so far. *)
Definition air_unvisited (e : Engine) (log keys : list coords) : Prop :=
  forall x b, In x keys -> assoc_get (blocks e) x = Some b -> id b = AIR ->
    updates_of log x = 0%nat.

(** Every Air block that is pending was not updated so far and is not
    among [keys]. *)
Definition air_pending (e : Engine) (log keys : list coords) : Prop :=
  forall x b, In x (update_buffer e) -> assoc_get (blocks e) x = Some b ->
    id b = AIR -> updates_of log x = 0%nat /\ ~ In x keys.

(** The tick that started in [e0] is through with the block under [k]: it
    is stamped with the tick, or it is an Air block, or it is a Delayer
    that the guard blocks. *)
Definition through (e0 e : Engine) (k : coords) : Prop :=
  forall b, assoc_get (blocks e) k = Some b ->
    last_updated b = tick e0 \/ id b = AIR \/ blocked b e0.

(** ** Example worlds *)

(** An engine at tick 1 that holds one power source. *)
Definition world_one_power : Engine :=
  mkEngine 1 [((1, 0, 0), mkBlock POWER {[ "signal" := VInt 16 ]} (1, 0, 0) 1 0%nat)]
           [] 5.

(** A wire at (1,0,0) facing east and, south of it, a delayer at (0,0,0)
    whose input side is north; both were built during tick 1 and the
    engine is at tick 2. *)
Definition wire_east : Block :=
  mkBlock WIRE {[ "facing" := VStr "east"; "signal" := VInt 0 ]} (1, 0, 0) 1 0%nat.

Definition delayer_north : Block :=
  mkBlock DELAYER
    {[ "facing" := VStr "north"; "delay" := VInt 1; "signal" := VInt 0 ]}
    (0, 0, 0) 1 1%nat.

Definition world_wire_delayer : Engine :=
  mkEngine 2 [((1, 0, 0), wire_east); ((0, 0, 0), delayer_north)] [] 2.

(** A power source at (1,0,0) and, south of it at (0,0,0), a wire or a
    delayer facing north; the engine is at tick 2. *)
Definition power_source : Block :=
  mkBlock POWER {[ "signal" := VInt 16 ]} (1, 0, 0) 1 0%nat.

Definition wire_north : Block :=
  mkBlock WIRE {[ "facing" := VStr "north"; "signal" := VInt 0 ]} (0, 0, 0) 1 1%nat.

Definition world_power_wire : Engine :=
  mkEngine 2 [((1, 0, 0), power_source); ((0, 0, 0), wire_north)] [] 2.

Definition delayer_two : Block :=
  mkBlock DELAYER
    {[ "facing" := VStr "north"; "delay" := VInt 2; "signal" := VInt 0 ]}
    (0, 0, 0) 1 1%nat.

Definition world_power_delayer (t : Z) : Engine :=
  mkEngine t [((1, 0, 0), power_source); ((0, 0, 0), delayer_two)] [] 2.

(** A power source whose state carries a list of three integers under
    ['facing'], and south of it a delayer whose input side is north. The
    delayer was built after the source, during tick 1, and its constructor
    took the early [return]; one tick has run since. *)
Definition power_odd : Block :=
  mkBlock POWER
    {[ "facing" := VList [VInt 5; VInt 5; VInt 5]; "signal" := VInt 16 ]}
    (1, 0, 0) 1 0%nat.

Definition delayer_blocked : Block :=
  mkBlock DELAYER {[ "facing" := VStr "north"; "delay" := VInt 1 ]}
    (0, 0, 0) 0 5%nat.

Definition world_blocked : Engine :=
  mkEngine 2 [((1, 0, 0), power_odd); ((0, 0, 0), delayer_blocked)] [] 10.

(** [set.pop] that removes the oldest reference. *)
Definition pop_oldest (buf : list coords) : nat := 0%nat.

(** Two wires that face each other's positions. [wire_a] carries the
    stamp [l]; with [l = 5] at tick 1 it is stamped ahead of the tick. *)
Definition wire_a (l : Z) : Block :=
  mkBlock WIRE {[ "facing" := VStr "north"; "signal" := VInt 0 ]} (0, 0, 0) l 0%nat.

Definition wire_b : Block :=
  mkBlock WIRE {[ "facing" := VStr "south"; "signal" := VInt 0 ]} (1, 0, 0) 1 1%nat.

Definition world_ahead (l : Z) (buf : list coords) (u : nat) : Engine :=
  mkEngine 1 [((0, 0, 0), wire_a l); ((1, 0, 0), wire_b)] buf u.

(** A wire at (1,0,0) that reads the empty cell north of it, and south of
    it [wire_a 5], stamped ahead of tick 2, that reads the first wire. *)
Definition wire_up : Block :=
  mkBlock WIRE {[ "facing" := VStr "north"; "signal" := VInt 0 ]} (1, 0, 0) 1 1%nat.

Definition world_ahead_pair : Engine :=
  mkEngine 2 [((1, 0, 0), wire_up); ((0, 0, 0), wire_a 5)] [] 2.

(** * Properties *)

(** ** Lookup *)

Lemma coords_eqb_eq (a b : coords) : coords_eqb a b = true <-> a = b.
Proof.
  destruct a as [[a0 a1] a2], b as [[b0 b1] b2]; cbn.
  rewrite !andb_true_iff, !Z.eqb_eq. split.
  - intros [[-> ->] ->]; reflexivity.
  - intros [= -> -> ->]; auto.
Qed.

Lemma coords_eqb_refl (a : coords) : coords_eqb a a = true.
Proof. apply coords_eqb_eq; reflexivity. Qed.

Lemma coords_eqb_neq (a b : coords) : coords_eqb a b = false <-> a <> b.
Proof.
  rewrite <- coords_eqb_eq. destruct (coords_eqb a b); split; congruence.
Qed.

Lemma get_block_blocks (e : Engine) (c : coords) :
  blocks (get_block e c).2 = blocks e /\
  tick (get_block e c).2 = tick e /\
  update_buffer (get_block e c).2 = update_buffer e /\
  uuid_next (get_block e c).2 = S (uuid_next e).
Proof. unfold get_block; cbn; auto. Qed.

(** C7. [get_block] is total. At a coordinate that holds a block it yields
    that block; elsewhere it yields an Air block at that coordinate whose
    [update] changes nothing. In both cases the block map of the engine is
    the same afterwards: the Air block is not inserted. *)
Theorem get_block_spec (e : Engine) (c : coords) :
  blocks (get_block e c).2 = blocks e /\
  (forall b, assoc_get (blocks e) c = Some b -> (get_block e c).1 = b) /\
  (assoc_get (blocks e) c = None ->
     let air := (get_block e c).1 in
     id air = AIR /\ bcoords air = c /\
     forall e', update air e' = Returned air e').
Proof.
  split; [apply get_block_blocks|]. split.
  - intros b Hb. unfold get_block; cbn. rewrite Hb. reflexivity.
  - intros Hn. unfold get_block; cbn. rewrite Hn. cbn.
    repeat split.
Qed.

(** C10. At a coordinate that holds no block, two calls of [get_block] in
    a row yield Air blocks with different identity tokens: [__eq__] tells
    them apart, and it tells each of them apart from every stored block
    whose token the uuid source handed out before. *)
Theorem get_block_fresh_air (e : Engine) (c : coords) :
  assoc_get (blocks e) c = None ->
  (forall k b, assoc_get (blocks e) k = Some b -> (gid b < uuid_next e)%nat) ->
  let r1 := get_block e c in
  let r2 := get_block r1.2 c in
  Block_eq r1.1 r2.1 = false /\
  Block_eq r2.1 r1.1 = false /\
  gid r1.1 <> gid r2.1 /\
  forall k b, assoc_get (blocks r2.2) k = Some b ->
    Block_eq r1.1 b = false /\ Block_eq r2.1 b = false /\
    Block_eq b r1.1 = false /\ Block_eq b r2.1 = false.
Proof.
  intros Hn Hold r1 r2.
  assert (E1 : r1.1 = mkBlock AIR ∅ c (tick e - 1) (uuid_next e))
    by (subst r1; unfold get_block; cbn; rewrite Hn; reflexivity).
  assert (E2 : r2.1 = mkBlock AIR ∅ c (tick e - 1) (S (uuid_next e)))
    by (subst r2 r1; unfold get_block; cbn; rewrite Hn; reflexivity).
  assert (E3 : blocks r2.2 = blocks e) by reflexivity.
  rewrite E1, E2, E3. clearbody r1 r2. unfold Block_eq. simpl id. simpl gid.
  assert (N1 : Nat.eqb (uuid_next e) (S (uuid_next e)) = false)
    by (apply Nat.eqb_neq; lia).
  assert (N2 : Nat.eqb (S (uuid_next e)) (uuid_next e) = false)
    by (apply Nat.eqb_neq; lia).
  rewrite N1, N2. repeat split; try reflexivity; try lia.
  all: specialize (Hold _ _ H);
    apply andb_false_iff; right; apply Nat.eqb_neq; lia.
Qed.

Lemma get_block_fresh_air_witness :
  Block_eq (get_block world_one_power (0, 0, 0)).1
           (get_block (get_block world_one_power (0, 0, 0)).2 (0, 0, 0)).1 = false.
Proof.
  refine (proj1 (get_block_fresh_air world_one_power (0, 0, 0) _ _)).
  - reflexivity.
  - intros k b H. unfold world_one_power in H. cbn in H.
    match type of H with (if ?c then _ else _) = _ => destruct c end;
      [|discriminate].
    injection H as Hb. subst b. cbn. lia.
Defined.

(** ** Persistence *)

Lemma tuple_gt_irrefl (a : list Z) : tuple_gt a a = false.
Proof.
  induction a as [|x a IH]; cbn; [reflexivity|].
  rewrite Z.eqb_refl. exact IH.
Qed.

(** C6. For a file that holds a payload, [load] raises exactly when the
    version of the payload is greater than [VERSION]; with an equal or
    smaller version it ends without raising; and what [save] writes carries
    [VERSION]. *)
Theorem load_raises_iff (file : string) (fs : gmap string payload)
    (uuid : nat) (data : payload) :
  fs !! file = Some data ->
  ((exists x, load file fs uuid = Err x) <->
     tuple_gt (p_version data) VERSION = true) /\
  (tuple_gt (p_version data) VERSION = false -> load file fs uuid = Val tt) /\
  (forall (e : Engine) (file' : string) (fs' : gmap string payload),
     p_version <$> (save e file' fs' !! file') = Some VERSION).
Proof.
  intros Hf. unfold load, load_local. rewrite Hf.
  destruct (tuple_gt (p_version data) VERSION) eqn:Hv; cbn.
  - repeat split; try discriminate; eauto.
    intros. unfold save. rewrite lookup_insert_eq. reflexivity.
  - repeat split; try discriminate.
    + intros [x Hx]. discriminate.
    + intros. unfold save. rewrite lookup_insert_eq. reflexivity.
Qed.

Lemma load_raises_iff_witness :
  load "w.sav" (save world_one_power "w.sav" ∅) 0 = Val tt.
Proof.
  refine (proj1 (proj2 (load_raises_iff "w.sav"
            (save world_one_power "w.sav" ∅) 0
            (mkPayload VERSION (blocks world_one_power) (tick world_one_power))
            _)) _).
  - unfold save. apply lookup_insert_eq.
  - reflexivity.
Defined.

(** C2. Loading what [save] wrote builds, inside [load], an engine with
    the saved block map and tick, and the call then yields [None]: the
    engine is not handed to the caller. *)
Theorem load_after_save_discards (e : Engine) (file : string)
    (fs : gmap string payload) (uuid : nat) :
  load file (save e file fs) uuid = Val tt /\
  exists engine, load_local file (save e file fs) uuid = Val engine /\
    blocks engine = blocks e /\ tick engine = tick e.
Proof.
  unfold load, load_local, save. rewrite lookup_insert_eq. cbn [p_version].
  rewrite tuple_gt_irrefl. cbn. split; [reflexivity|]. eauto.
Qed.

(** ** Scheduling *)

Lemma BlockType_eqb_eq (a b : BlockType) : BlockType_eqb a b = true <-> a = b.
Proof. destruct a, b; cbn; split; congruence. Qed.

Lemma Block_eq_refl (b : Block) : Block_eq b b = true.
Proof.
  unfold Block_eq. rewrite Nat.eqb_refl, andb_true_r.
  apply BlockType_eqb_eq; reflexivity.
Qed.

Lemma get_block_stored (e : Engine) (c : coords) (b : Block) :
  assoc_get (blocks e) c = Some b -> (get_block e c).1 = b.
Proof. intros H. unfold get_block; cbn. rewrite H. reflexivity. Qed.

Lemma get_block_absent (e : Engine) (c : coords) :
  assoc_get (blocks e) c = None ->
  (get_block e c).1 = mkBlock AIR ∅ c (tick e - 1) (uuid_next e).
Proof. intros H. unfold get_block; cbn. rewrite H. reflexivity. Qed.

Lemma buffer_mem_true (e : Engine) (b : Block) :
  buffer_mem e b = true <->
  exists r b', In r (update_buffer e) /\ assoc_get (blocks e) r = Some b' /\
               Block_eq b' b = true.
Proof.
  unfold buffer_mem. rewrite existsb_exists. split.
  - intros (r & Hin & H). destruct (assoc_get (blocks e) r) as [b'|] eqn:E;
      [eauto 6|discriminate].
  - intros (r & b' & Hin & E & H). exists r. rewrite E. auto.
Qed.

Lemma schedule_update_frame (e : Engine) (ref : coords) (b : Block) :
  blocks (schedule_update e ref b) = blocks e /\
  tick (schedule_update e ref b) = tick e /\
  uuid_next (schedule_update e ref b) = uuid_next e.
Proof. unfold schedule_update. destruct (buffer_mem e b); cbn; auto. Qed.

Lemma schedule_update_buffer (e : Engine) (ref : coords) (b : Block) :
  (forall r, In r (update_buffer e) -> In r (update_buffer (schedule_update e ref b))) /\
  (forall r, In r (update_buffer (schedule_update e ref b)) ->
             In r (update_buffer e) \/ r = ref).
Proof.
  unfold schedule_update. destruct (buffer_mem e b); cbn; split; auto.
  - intros r H. apply in_or_app; auto.
  - intros r H. apply in_app_or in H as [H|[H|[]]]; auto.
Qed.

Lemma schedule_update_mem (e : Engine) (ref : coords) (b : Block) :
  assoc_get (blocks e) ref = Some b ->
  buffer_mem (schedule_update e ref b) b = true.
Proof.
  intros Hb. unfold schedule_update. destruct (buffer_mem e b) eqn:E; [exact E|].
  apply buffer_mem_true. exists ref, b. cbn. repeat split; auto.
  - apply in_or_app; right; left; reflexivity.
  - apply Block_eq_refl.
Qed.

Lemma buffer_mem_mono (e e' : Engine) (b : Block) :
  blocks e' = blocks e ->
  (forall r, In r (update_buffer e) -> In r (update_buffer e')) ->
  buffer_mem e b = true -> buffer_mem e' b = true.
Proof.
  intros Hbl Hsub. rewrite !buffer_mem_true. intros (r & b' & Hin & E & H).
  exists r, b'. rewrite Hbl. auto.
Qed.

Lemma schedule_if_stale_frame (e : Engine) (ref : coords) (b : Block) :
  blocks (schedule_if_stale e ref b) = blocks e /\
  tick (schedule_if_stale e ref b) = tick e /\
  uuid_next (schedule_if_stale e ref b) = uuid_next e.
Proof.
  unfold schedule_if_stale. destruct (_ && _); auto using schedule_update_frame.
Qed.

Lemma schedule_if_stale_decide (e : Engine) (b : Block) :
  negb (last_updated b =? tick e) && negb (BlockType_eqb (id b) AIR) = true
  <-> stale e b.
Proof.
  unfold stale. rewrite andb_true_iff, !negb_true_iff, Z.eqb_neq.
  rewrite <- BlockType_eqb_eq. destruct (BlockType_eqb (id b) AIR);
    intuition congruence.
Qed.

Lemma schedule_if_stale_buffer (e : Engine) (ref : coords) (b : Block) :
  (forall r, In r (update_buffer e) ->
             In r (update_buffer (schedule_if_stale e ref b))) /\
  (forall r, In r (update_buffer (schedule_if_stale e ref b)) ->
             In r (update_buffer e) \/ (r = ref /\ stale e b)).
Proof.
  unfold schedule_if_stale.
  destruct (negb (last_updated b =? tick e) && negb (BlockType_eqb (id b) AIR))
    eqn:E; [|auto].
  apply schedule_if_stale_decide in E.
  destruct (schedule_update_buffer e ref b) as [H1 H2]. split; [exact H1|].
  intros r H. destruct (H2 r H); auto.
Qed.

(** ** Power *)

Lemma Power_loop_spec (ns : list coords) : forall e : Engine,
  let e' := Power_loop ns e in
  blocks e' = blocks e /\ tick e' = tick e /\
  (forall r, In r (update_buffer e) -> In r (update_buffer e')) /\
  (forall r, In r (update_buffer e') ->
     In r (update_buffer e) \/
     (In r ns /\ exists b, assoc_get (blocks e) r = Some b /\ stale e b)) /\
  (forall i b, In i ns -> assoc_get (blocks e) i = Some b -> stale e b ->
     buffer_mem e' b = true).
Proof.
  induction ns as [|i rest IH]; intros e; cbn.
  - repeat split; auto; try (intros ? ? []).
  - set (e1 := (mkEngine (tick e) (blocks e) (update_buffer e) (S (uuid_next e)))).
    set (block := default _ _).
    assert (Hblk : block = default (mkBlock AIR ∅ i (tick e - 1) (uuid_next e))
                             (assoc_get (blocks e) i)) by reflexivity.
    clearbody block.
    set (e2 := schedule_if_stale e1 i block).
    destruct (IH e2) as (Hb & Ht & Hsub & Hnew & Hall).
    destruct (schedule_if_stale_frame e1 i block) as (Fb & Ft & _).
    destruct (schedule_if_stale_buffer e1 i block) as (S1 & S2).
    fold e2 in Fb, Ft, S1, S2.
    assert (Hst : forall b, stale e2 b <-> stale e b)
      by (intros b; unfold stale; rewrite Ft; reflexivity).
    assert (Hst1 : forall b, stale e1 b <-> stale e b) by reflexivity.
    repeat split.
    + rewrite Hb, Fb. reflexivity.
    + rewrite Ht, Ft. reflexivity.
    + intros r H. apply Hsub, S1, H.
    + intros r H. destruct (Hnew r H) as [H'|(Hin & b & E & Hs)].
      * destruct (S2 r H') as [H''|[-> Hs]]; [left; exact H''|].
        right. split; [left; reflexivity|].
        destruct (assoc_get (blocks e) i) as [b|] eqn:E; cbn in Hblk.
        -- exists b. split; [reflexivity|]. rewrite <- Hblk. apply Hst1, Hs.
        -- destruct Hs as [_ Hs]. rewrite Hblk in Hs. cbn in Hs. congruence.
      * right. split; [right; exact Hin|]. exists b. rewrite Fb in E.
        split; [exact E|]. apply Hst, Hs.
    + intros j b [<-|Hin] E Hs.
      * assert (Hblock : block = b) by (rewrite Hblk, E; reflexivity).
        apply buffer_mem_mono with (e := e2); auto.
        subst e2. unfold schedule_if_stale.
        rewrite Hblock. apply Hst1, schedule_if_stale_decide in Hs. rewrite Hs.
        apply schedule_update_mem. exact E.
      * apply Hall with (i := j); auto. rewrite Fb. exact E. apply Hst, Hs.
Qed.

Lemma get_surrounding_block_all (c : coords) :
  get_surrounding_block c VNone = Val (cardinal c).
Proof. destruct c as [[x y] z]. reflexivity. Qed.

(** C8. A Power block comes out of its constructor with signal 16. Its
    [update] returns, leaves its state dictionary as it was, removes
    nothing from the pending set, and adds to it exactly the blocks stored
    at the four cardinal positions that are not Air and whose
    [last_updated] differs from the current tick, whatever their type. *)
Theorem Power_spec (e : Engine) :
  (forall st c, exists self e',
     Power_init e st c = Returned self e' /\
     state self !! "signal" = Some (VInt 16)) /\
  (forall self, exists self' e',
     Power_update self e = Returned self' e' /\
     state self' = state self /\
     blocks e' = blocks e /\
     (forall r, In r (update_buffer e) -> In r (update_buffer e')) /\
     (forall r, In r (update_buffer e') ->
        In r (update_buffer e) \/
        (In r (cardinal (bcoords self)) /\
         exists b, assoc_get (blocks e) r = Some b /\ stale e b)) /\
     (forall i b, In i (cardinal (bcoords self)) ->
        assoc_get (blocks e) i = Some b -> stale e b ->
        buffer_mem e' b = true)).
Proof.
  split.
  - intros st c. unfold Power_init, Block_init, update. cbn [id].
    unfold Power_update. rewrite get_surrounding_block_all.
    eexists _, _. split; [reflexivity|]. cbn [state set_state set_last_updated].
    apply lookup_insert_eq.
  - intros self. unfold Power_update. rewrite get_surrounding_block_all.
    destruct (Power_loop_spec (cardinal (bcoords self)) e)
      as (Hb & Ht & Hsub & Hnew & Hall).
    eexists _, _. split; [reflexivity|]. repeat split; auto.
Qed.

(** ** Delayer *)

(** Whatever way [Delayer.update] ends, either the object is as it was
    (the early [return], or an exception), or the call went through to the
    end and stamped the current tick. *)
Lemma Delayer_update_cases (self : Block) (e : Engine) :
  match Delayer_update self e with
  | Raised _ self' e' => self' = self /\ blocks e' = blocks e /\ tick e' = tick e
  | Returned self' e' =>
      blocks e' = blocks e /\ tick e' = tick e /\
      (self' = self \/ last_updated self' = tick e)
  end.
Proof.
  unfold Delayer_update.
  destruct (Delayer_ports self) as [[ic oc]|x]; [|auto].
  destruct (get_block e ic) as [input_block e1] eqn:E1.
  destruct (get_block e1 oc) as [output_block e2] eqn:E2.
  assert (Hb : blocks e2 = blocks e /\ tick e2 = tick e).
  { unfold get_block, new_Air in E1, E2.
    injection E1 as _ <-. injection E2 as _ <-. cbn. auto. }
  destruct Hb as [Hb Ht].
  destruct (Delayer_blocked self input_block output_block) as [[|]|x]; auto.
  destruct (Delayer_step self input_block) as [st|x]; auto.
  destruct (schedule_if_stale_frame e2 ic input_block) as (F1 & F2 & _).
  destruct (schedule_if_stale_frame (schedule_if_stale e2 ic input_block)
              oc output_block) as (G1 & G2 & _).
  rewrite G1, G2, F1, F2. cbn. auto.
Qed.

(** C3. The delayer [delayer_north] has the wire [wire_east] on its input
    side, and that wire faces east, away from the delayer. The guard of
    [Delayer.update] hands the wire's ['facing'] string to
    [get_surrounding_block] as coordinates, so the call does not return:
    it raises [TypeError], and so does the [tick_ahead] that runs it. The
    delayer itself is as it was. *)
Theorem Delayer_update_facing_neighbour_raises :
  (exists e', update delayer_north world_wire_delayer
              = Raised TypeError delayer_north e') /\
  (exists e' log, tick_ahead pop_oldest 4 world_wire_delayer
                  = Crashed TypeError e' log).
Proof.
  split.
  - eexists. vm_compute. reflexivity.
  - eexists _, _. vm_compute. reflexivity.
Qed.

Lemma Delayer_update_open (self : Block) (e : Engine) (i o : Block)
    (st : gmap string value) :
  Delayer_neighbours self e = Val (i, o) ->
  Delayer_blocked self i o = Val false ->
  Delayer_step self i = Val st ->
  exists e', Delayer_update self e
             = Returned (set_last_updated (set_state self st) (tick e)) e'.
Proof.
  unfold Delayer_neighbours, Delayer_update.
  destruct (Delayer_ports self) as [[ic oc]|x]; cbn; [|discriminate].
  intros [= <- <-] Hb Hs. cbn. rewrite Hb, Hs.
  eexists. f_equal.
  destruct (schedule_if_stale_frame
              (mkEngine (tick e) (blocks e) (update_buffer e) (S (S (uuid_next e))))
              ic (default (mkBlock AIR ∅ ic (tick e - 1) (uuid_next e))
                          (assoc_get (blocks e) ic))) as (_ & F & _).
  match goal with
  | |- set_last_updated _ (tick (schedule_if_stale ?a ?b ?c)) = _ =>
      destruct (schedule_if_stale_frame a b c) as (_ & G & _); rewrite G
  end.
  rewrite F. reflexivity.
Qed.

Lemma fed_ext (self self' : Block) (e : Engine) :
  bcoords self' = bcoords self ->
  state self' !! "facing" = state self !! "facing" ->
  fed self e -> fed self' e.
Proof.
  intros Hc Hf (i & o & Hn & Hb & Hs). exists i, o.
  unfold Delayer_neighbours, Delayer_ports, Delayer_blocked,
    Delayer_disallowed in *.
  rewrite Hc, Hf. auto.
Qed.




(** ** Wire *)

Lemma res_map_existsb {A B} (f : A -> res B) (p : B -> bool) (l : list A) :
  forall cs, res_map f l = Val cs ->
  existsb p cs
  = existsb (fun k => match f k with Val c => p c | Err _ => false end) l.
Proof.
  induction l as [|a l IH]; cbn; intros cs H.
  - injection H as <-. reflexivity.
  - destruct (f a) as [b|x]; cbn in H; [|discriminate].
    destruct (res_map f l) as [bs|x]; cbn in H; [|discriminate].
    injection H as <-. cbn. rewrite (IH bs eq_refl). reflexivity.
Qed.

Lemma Wire_skips_points_away (self block : Block) (r : bool) :
  Wire_skips self block = Val r -> points_away self block = r.
Proof.
  unfold Wire_skips, points_away.
  destruct (dict_get (state block) "facing") as [|z|s|l] eqn:F; cbn [truthy].
  - intros [= <-]; reflexivity.
  - destruct (negb (z =? 0)); intros [= <-]; reflexivity.
  - destruct (negb (String.eqb s "")); cbn [andb]; [|intros [= <-]; reflexivity].
    destruct (opposite (VStr s)) as [o|x]; cbn [res_bind]; [|discriminate].
    unfold get_surrounding_block; cbn [truthy res_map]. unfold on_side.
    destruct (direction_lookup (bcoords block) (VStr o)) as [c|x];
      cbn [res_bind]; [|discriminate].
    intros [= <-]. cbn [existsb]. rewrite orb_false_r. reflexivity.
  - destruct l as [|d l]; [intros [= <-]; reflexivity|].
    unfold get_surrounding_block. cbn [truthy].
    destruct (res_map (direction_lookup (bcoords block)) (d :: l)) as [cs|x] eqn:E;
      cbn [res_bind]; [|discriminate].
    intros [= <-]. f_equal.
    symmetry. apply (res_map_existsb _ (coords_eqb (bcoords self)) _ _ E).
Qed.

Lemma fold_max_shift (a m : Z) (l : list Z) :
  fold_right Z.max (Z.max a m) l = Z.max a (fold_right Z.max m l).
Proof. induction l as [|x l IH]; cbn; [reflexivity|]. rewrite IH. lia. Qed.

Lemma get_block_view (e1 e2 : Engine) (i : coords) :
  blocks e1 = blocks e2 ->
  state (get_block e1 i).1 = state (get_block e2 i).1 /\
  bcoords (get_block e1 i).1 = bcoords (get_block e2 i).1 /\
  id (get_block e1 i).1 = id (get_block e2 i).1.
Proof.
  intros H. unfold get_block; cbn. rewrite H.
  destruct (assoc_get (blocks e2) i); cbn; auto.
Qed.

Lemma points_away_view (w w' b b' : Block) :
  bcoords w = bcoords w' -> bcoords b = bcoords b' -> state b = state b' ->
  points_away w b = points_away w' b'.
Proof.
  intros Hw Hb Hs. unfold points_away, on_side. rewrite Hw, Hb, Hs. reflexivity.
Qed.

Lemma signal_of_default (b : Block) (z : Z) :
  default (VInt 0) (state b !! "signal") = VInt z -> signal_of b = z.
Proof.
  unfold signal_of. destruct (state b !! "signal") as [v|]; cbn.
  - intros ->. reflexivity.
  - intros [= <-]. reflexivity.
Qed.

Lemma Wire_loop_signal (self : Block) (e : Engine) (ns : list coords) :
  forall (self0 : Block) (e0 : Engine) (m : Z) (self' : Block) (e' : Engine),
  bcoords self0 = bcoords self -> blocks e0 = blocks e ->
  state self0 !! "signal" = Some (VInt m) ->
  Wire_loop ns self0 e0 = Returned self' e' ->
  state self' !! "signal"
  = Some (VInt (fold_right Z.max m
       (map (fun b => signal_of b - 1)
            (List.filter (fun b => negb (points_away self b))
                         (map (fun i => (get_block e i).1) ns))))).
Proof.
  induction ns as [|i rest IH]; intros self0 e0 m self' e' Hc Hb Hm Hrun.
  - cbn in Hrun. injection Hrun as <- <-. cbn. exact Hm.
  - cbn [Wire_loop] in Hrun.
    destruct (get_block_view e0 e i Hb) as (Vs & Vc & _).
    destruct (get_block e0 i) as [block e1] eqn:G. cbn [fst] in Vs, Vc.
    assert (Hb1 : blocks e1 = blocks e).
    { pose proof (get_block_blocks e0 i) as H. rewrite G in H. cbn in H.
      destruct H as [-> _]. exact Hb. }
    set (e2 := if (last_updated block <=? last_updated self0)
                  && negb (BlockType_eqb (id block) AIR)
               then schedule_update e1 i block else e1) in Hrun.
    assert (Hb2 : blocks e2 = blocks e).
    { subst e2. destruct (_ && _); [|exact Hb1].
      destruct (schedule_update_frame e1 i block) as [-> _]. exact Hb1. }
    clearbody e2.
    assert (Hpa : forall r, Wire_skips self0 block = Val r ->
                  points_away self (get_block e i).1 = r).
    { intros r Hr. apply Wire_skips_points_away in Hr. rewrite <- Hr.
      apply points_away_view; auto. }
    cbn [map List.filter].
    destruct (Wire_skips self0 block) as [[|]|x]; [| |discriminate].
    + rewrite (Hpa true eq_refl). cbn [negb]. eapply IH; eauto.
    + rewrite (Hpa false eq_refl). cbn [negb map fold_right].
      unfold own_signal in Hrun. rewrite Hm in Hrun.
      destruct (default (VInt 0) (state block !! "signal")) as [|z| |] eqn:S;
        cbn in Hrun; try discriminate.
      assert (Hz : signal_of (get_block e i).1 = z).
      { unfold signal_of. rewrite <- Vs. apply signal_of_default in S. exact S. }
      rewrite Hz, <- fold_max_shift.
      replace (z - 1) with (z + -1) by lia.
      refine (IH _ _ _ _ _ _ _ _ Hrun);
        [exact Hc|exact Hb2|cbn [state set_state]; apply lookup_insert_eq].
Qed.

(** C4. When the update of a wire with a ['facing'] entry returns, the
    signal of the wire is the maximum, floored at 0, of [signal - 1] over
    the blocks found at the positions its facing selects, leaving out the
    neighbours whose own facing points away from the wire. *)
Theorem Wire_update_signal (self : Block) (e : Engine) (f : value)
    (self' : Block) (e' : Engine) :
  state self !! "facing" = Some f ->
  Wire_update self e = Returned self' e' ->
  exists ns, get_surrounding_block (bcoords self) f = Val ns /\
    state self' !! "signal"
    = Some (VInt (spec_wire_signal self (map (fun i => (get_block e i).1) ns))).
Proof.
  intros Hf. unfold Wire_update. cbn [state set_state bcoords].
  rewrite lookup_insert_ne by discriminate. rewrite Hf.
  destruct (get_surrounding_block (bcoords self) f) as [ns|x]; [|discriminate].
  intros Hrun. exists ns. split; [reflexivity|].
  unfold spec_wire_signal.
  refine (Wire_loop_signal self e ns _ _ _ _ _ _ _ _ Hrun);
    [reflexivity|reflexivity|cbn [state set_state]; apply lookup_insert_eq].
Qed.

Lemma Wire_update_signal_witness :
  exists self' e',
    Wire_update wire_north world_power_wire = Returned self' e' /\
    exists ns, get_surrounding_block (bcoords wire_north) (VStr "north") = Val ns /\
      state self' !! "signal"
      = Some (VInt (spec_wire_signal wire_north
                      (map (fun i => (get_block world_power_wire i).1) ns))).
Proof.
  eexists _, _. split.
  - vm_compute. reflexivity.
  - eapply Wire_update_signal.
    + vm_compute. reflexivity.
    + vm_compute. reflexivity.
Defined.

Lemma fed_power_delayer (t : Z) : fed delayer_two (world_power_delayer t).
Proof.
  exists power_source, (mkBlock AIR ∅ (-1, 0, 0) (t - 1) 3%nat).
  repeat split.
Qed.



(** ** What one update does to the engine *)

Lemma get_block_not_air (e : Engine) (i : coords) (block : Block) (e1 : Engine) :
  get_block e i = (block, e1) ->
  blocks e1 = blocks e /\ tick e1 = tick e /\
  update_buffer e1 = update_buffer e /\
  (id block <> AIR -> assoc_get (blocks e) i = Some block).
Proof.
  unfold get_block, new_Air. intros [= <- <-]. cbn. repeat split.
  destruct (assoc_get (blocks e) i); cbn; congruence.
Qed.

Lemma schedule_update_NoDup (e : Engine) (ref : coords) (b : Block) :
  assoc_get (blocks e) ref = Some b ->
  NoDup (update_buffer e) -> NoDup (update_buffer (schedule_update e ref b)).
Proof.
  intros Hb Hnd. unfold schedule_update.
  destruct (buffer_mem e b) eqn:E; [exact Hnd|]. cbn.
  apply NoDup_app. repeat split; auto.
  - intros x Hx Hx'. apply list_elem_of_In in Hx, Hx'.
    destruct Hx' as [<-|[]].
    assert (buffer_mem e b = true); [|congruence].
    apply buffer_mem_true. exists ref, b. auto using Block_eq_refl.
  - apply NoDup_singleton.
Qed.

(** The neighbour fetched at [i] is scheduled under a test [c] joined
    with "is not Air": the pattern of all three scheduling sites. *)
Lemma cond_schedule_effect (e : Engine) (i : coords) (c : bool)
    (block : Block) (e1 : Engine) :
  get_block e i = (block, e1) ->
  let e2 := if c && negb (BlockType_eqb (id block) AIR)
            then schedule_update e1 i block else e1 in
  blocks e2 = blocks e /\ tick e2 = tick e /\
  (forall r, In r (update_buffer e) -> In r (update_buffer e2)) /\
  (forall r, In r (update_buffer e2) ->
     In r (update_buffer e) \/
     (r = i /\ c = true /\ assoc_get (blocks e) i = Some block /\ id block <> AIR)) /\
  (NoDup (update_buffer e) -> NoDup (update_buffer e2)).
Proof.
  intros G e2. destruct (get_block_not_air e i block e1 G) as (Hb & Ht & Hu & Hs).
  subst e2. destruct c; cbn [andb]; [|rewrite Hb, Ht, Hu; repeat split; auto].
  destruct (BlockType_eqb (id block) AIR) eqn:A; cbn [negb];
    [rewrite Hb, Ht, Hu; repeat split; auto|].
  assert (Hid : id block <> AIR)
    by (intros H; apply BlockType_eqb_eq in H; congruence).
  specialize (Hs Hid).
  destruct (schedule_update_frame e1 i block) as (F1 & F2 & _).
  destruct (schedule_update_buffer e1 i block) as (S1 & S2).
  rewrite F1, F2, Hb, Ht. rewrite Hu in S1, S2. repeat split; auto.
  - intros r H. destruct (S2 r H) as [H'| ->]; auto.
  - intros Hnd. apply schedule_update_NoDup; [rewrite Hb; exact Hs|].
    rewrite Hu. exact Hnd.
Qed.

Lemma direction_lookup_neq (c c' : coords) (k : value) :
  direction_lookup c k = Val c' -> c' <> c.
Proof.
  destruct c as [[x y] z]. unfold direction_lookup.
  destruct k as [|n|s|l]; try discriminate.
  repeat (match goal with |- context [String.eqb ?a ?b] =>
            destruct (String.eqb a b) end);
    try discriminate; intros [= <-] [= H]; lia.
Qed.

Lemma res_map_In {A B} (f : A -> res B) (l : list A) :
  forall cs c, res_map f l = Val cs -> In c cs -> exists k, In k l /\ f k = Val c.
Proof.
  induction l as [|a l IH]; cbn; intros cs c H Hin.
  - injection H as <-. destruct Hin.
  - destruct (f a) as [b|x] eqn:Fa; cbn in H; [|discriminate].
    destruct (res_map f l) as [bs|x]; cbn in H; [|discriminate].
    injection H as <-. destruct Hin as [<-|Hin]; [eauto|].
    destruct (IH bs c eq_refl Hin) as (k & Hk & Hf). eauto.
Qed.

Lemma get_surrounding_block_neq (c : coords) (d : value) (ns : list coords) (i : coords) :
  get_surrounding_block c d = Val ns -> In i ns -> i <> c.
Proof.
  unfold get_surrounding_block. intros H Hin.
  destruct (if truthy d then d else VList ALL) as [|n|s|l].
  - destruct (direction_lookup c d) as [x|] eqn:E; cbn in H; [|discriminate].
    injection H as <-. destruct Hin as [<-|[]]. eapply direction_lookup_neq, E.
  - destruct (direction_lookup c d) as [x|] eqn:E; cbn in H; [|discriminate].
    injection H as <-. destruct Hin as [<-|[]]. eapply direction_lookup_neq, E.
  - destruct (direction_lookup c d) as [x|] eqn:E; cbn in H; [|discriminate].
    injection H as <-. destruct Hin as [<-|[]]. eapply direction_lookup_neq, E.
  - destruct (res_map_In _ _ _ _ H Hin) as (k & _ & Hk).
    eapply direction_lookup_neq, Hk.
Qed.

Lemma Wire_loop_effect (ns : list coords) :
  forall (self0 : Block) (e0 : Engine) (self' : Block) (e' : Engine),
  Wire_loop ns self0 e0 = Returned self' e' ->
  id self' = id self0 /\ bcoords self' = bcoords self0 /\
  last_updated self' = tick e0 /\
  blocks e' = blocks e0 /\ tick e' = tick e0 /\
  (forall r, In r (update_buffer e0) -> In r (update_buffer e')) /\
  (forall r, In r (update_buffer e') ->
     In r (update_buffer e0) \/
     (In r ns /\ exists nb, assoc_get (blocks e0) r = Some nb /\ id nb <> AIR /\
                            last_updated nb <= last_updated self0)) /\
  (NoDup (update_buffer e0) -> NoDup (update_buffer e')).
Proof.
  induction ns as [|i rest IH]; intros self0 e0 self' e' Hrun.
  - cbn in Hrun. injection Hrun as <- <-. cbn. repeat split; auto.
  - cbn [Wire_loop] in Hrun.
    destruct (get_block e0 i) as [block e1] eqn:G.
    pose proof (cond_schedule_effect e0 i
                  (last_updated block <=? last_updated self0) block e1 G) as C.
    cbv zeta in C.
    set (e2 := if (last_updated block <=? last_updated self0)
                  && negb (BlockType_eqb (id block) AIR)
               then schedule_update e1 i block else e1) in *.
    clearbody e2. destruct C as (Cb & Ct & Csub & Cnew & Cnd).
    assert (K : exists self1, Wire_loop rest self1 e2 = Returned self' e' /\
                id self1 = id self0 /\ bcoords self1 = bcoords self0 /\
                last_updated self1 = last_updated self0).
    { destruct (Wire_skips self0 block) as [[|]|x]; [eauto| |discriminate].
      match type of Hrun with
      | match ?m with Val _ => _ | Err _ => _ end = _ => destruct m
      end; [|discriminate].
      eexists. split; [exact Hrun|]. cbn. auto. }
    destruct K as (self1 & Hrun1 & Hi1 & Hc1 & Hl1).
    destruct (IH self1 e2 self' e' Hrun1)
      as (Hi & Hc & Hl & Hb & Ht & Hsub & Hnew & Hnd).
    rewrite Hi, Hc, Hl, Hb, Ht, Hi1, Hc1, Ct, Cb. repeat split; auto.
    + intros r H. destruct (Hnew r H) as [H'|(Hin & nb & E & Hid & Hle)].
      * destruct (Cnew r H') as [H''|(-> & Hcnd & E & Hid)]; [auto|].
        right. split; [left; reflexivity|]. exists block.
        repeat split; auto. apply Z.leb_le, Hcnd.
      * right. split; [right; exact Hin|]. exists nb. rewrite Cb in E.
        rewrite Hl1 in Hle. auto.
Qed.

Lemma schedule_if_stale_effect (e : Engine) (ref : coords) (block : Block) :
  (id block <> AIR -> assoc_get (blocks e) ref = Some block) ->
  let e' := schedule_if_stale e ref block in
  blocks e' = blocks e /\ tick e' = tick e /\
  (forall r, In r (update_buffer e) -> In r (update_buffer e')) /\
  (forall r, In r (update_buffer e') ->
     In r (update_buffer e) \/
     (r = ref /\ assoc_get (blocks e) ref = Some block /\ stale e block)) /\
  (NoDup (update_buffer e) -> NoDup (update_buffer e')).
Proof.
  intros Hs e'. subst e'.
  destruct (schedule_if_stale_frame e ref block) as (Fb & Ft & _).
  destruct (schedule_if_stale_buffer e ref block) as (S1 & S2).
  repeat split; auto.
  - intros r H. destruct (S2 r H) as [H'|[-> Hst]]; auto.
    right. repeat split; try apply Hst. apply Hs, Hst.
  - intros Hnd. unfold schedule_if_stale.
    destruct (negb (last_updated block =? tick e)
              && negb (BlockType_eqb (id block) AIR)) eqn:E; [|exact Hnd].
    apply schedule_if_stale_decide in E.
    apply schedule_update_NoDup; [apply Hs, E|exact Hnd].
Qed.

Lemma Power_loop_effect (ns : list coords) : forall e0 : Engine,
  let e' := Power_loop ns e0 in
  blocks e' = blocks e0 /\ tick e' = tick e0 /\
  (forall r, In r (update_buffer e0) -> In r (update_buffer e')) /\
  (forall r, In r (update_buffer e') ->
     In r (update_buffer e0) \/
     (In r ns /\ exists nb, assoc_get (blocks e0) r = Some nb /\ id nb <> AIR /\
                            last_updated nb <> tick e0)) /\
  (NoDup (update_buffer e0) -> NoDup (update_buffer e')).
Proof.
  induction ns as [|i rest IH]; intros e0; cbn [Power_loop].
  - cbv zeta. repeat split; auto.
  - destruct (get_block e0 i) as [block e1] eqn:G.
    destruct (get_block_not_air e0 i block e1 G) as (Gb & Gt & Gu & Gs).
    rewrite <- Gb in Gs.
    destruct (schedule_if_stale_effect e1 i block Gs) as (Sb & St & Ssub & Snew & Snd).
    destruct (IH (schedule_if_stale e1 i block)) as (Hb & Ht & Hsub & Hnew & Hnd).
    cbv zeta. rewrite Hb, Ht, Sb, St, Gb, Gt. rewrite Gu in *.
    repeat split; auto.
    intros r H. destruct (Hnew r H) as [H'|(Hin & nb & E & Hid & Hne)].
    + destruct (Snew r H') as [H''|(-> & E & Hst)]; [auto|].
      right. split; [left; reflexivity|]. exists block. rewrite <- Gb.
      destruct Hst as [Hl Hid]. rewrite Gt in Hl. auto.
    + right. split; [right; exact Hin|]. exists nb.
      rewrite Sb, Gb in E. rewrite St, Gt in Hne. auto.
Qed.

Lemma first_In {A} (l : list A) (x : A) : first l = Val x -> In x l.
Proof. destruct l; cbn; [discriminate|]. intros [= ->]. left; reflexivity. Qed.

Lemma Delayer_ports_neq (self : Block) (ic oc : coords) :
  Delayer_ports self = Val (ic, oc) -> ic <> bcoords self /\ oc <> bcoords self.
Proof.
  unfold Delayer_ports.
  destruct (state self !! "facing") as [f|]; cbn [res_bind]; [|discriminate].
  destruct (get_surrounding_block (bcoords self) f) as [ins|] eqn:I;
    cbn [res_bind]; [|discriminate].
  destruct (first ins) as [ic'|] eqn:Fi; cbn [res_bind]; [|discriminate].
  destruct (opposite f) as [o|]; cbn [res_bind]; [|discriminate].
  destruct (get_surrounding_block (bcoords self) (VStr o)) as [outs|] eqn:O;
    cbn [res_bind]; [|discriminate].
  destruct (first outs) as [oc'|] eqn:Fo; cbn [res_bind]; [|discriminate].
  intros [= <- <-]. split.
  - eapply get_surrounding_block_neq; [exact I|apply first_In, Fi].
  - eapply get_surrounding_block_neq; [exact O|apply first_In, Fo].
Qed.

Lemma Delayer_update_effect (b b' : Block) (e e' : Engine) :
  Delayer_update b e = Returned b' e' ->
  id b' = id b /\ bcoords b' = bcoords b /\
  blocks e' = blocks e /\ tick e' = tick e /\
  (last_updated b' = tick e \/ (b' = b /\ update_buffer e' = update_buffer e)) /\
  (forall r, In r (update_buffer e) -> In r (update_buffer e')) /\
  (forall r, In r (update_buffer e') -> In r (update_buffer e) \/ newly b e r) /\
  (NoDup (update_buffer e) -> NoDup (update_buffer e')).
Proof.
  unfold Delayer_update.
  destruct (Delayer_ports b) as [[ic oc]|x] eqn:P; [|discriminate].
  destruct (Delayer_ports_neq b ic oc P) as [Nic Noc].
  destruct (get_block e ic) as [input_block e1] eqn:G1.
  destruct (get_block e1 oc) as [output_block e2] eqn:G2.
  destruct (get_block_not_air e ic _ _ G1) as (B1 & T1 & U1 & S1).
  destruct (get_block_not_air e1 oc _ _ G2) as (B2 & T2 & U2 & S2).
  rewrite B1 in B2, S2. rewrite T1 in T2. rewrite U1 in U2.
  destruct (Delayer_blocked b input_block output_block) as [[|]|x];
    [| |discriminate].
  - intros [= <- <-]. rewrite B2, T2, U2. repeat split; auto.
  - destruct (Delayer_step b input_block) as [st|x]; [|discriminate].
    intros [= <- <-].
    rewrite <- B2 in S1, S2.
    destruct (schedule_if_stale_effect e2 ic input_block S1)
      as (Ab & At & Asub & Anew & And).
    set (e3 := schedule_if_stale e2 ic input_block) in *.
    rewrite <- Ab in S2.
    destruct (schedule_if_stale_effect e3 oc output_block S2)
      as (Cb & Ct & Csub & Cnew & Cnd).
    set (e4 := schedule_if_stale e3 oc output_block) in *.
    cbn [id bcoords last_updated set_last_updated set_state].
    rewrite Cb, Ct, Ab, At, B2, T2. rewrite U2 in *.
    repeat split; auto.
    intros r H. destruct (Cnew r H) as [H'|(-> & E & Hl & Hid)].
    + destruct (Anew r H') as [H''|(-> & E & Hl & Hid)]; [auto|].
      right. split; [exact Nic|]. exists input_block.
      rewrite B2 in E. rewrite T2 in Hl. auto.
    + right. split; [exact Noc|]. exists output_block.
      rewrite Ab, B2 in E. rewrite At, T2 in Hl. auto.
Qed.

Lemma update_effect (b b' : Block) (e e' : Engine) :
  update b e = Returned b' e' ->
  id b' = id b /\ bcoords b' = bcoords b /\
  blocks e' = blocks e /\ tick e' = tick e /\
  (last_updated b' = tick e \/ (b' = b /\ update_buffer e' = update_buffer e)) /\
  (id b = WIRE \/ id b = POWER -> last_updated b' = tick e) /\
  (forall r, In r (update_buffer e) -> In r (update_buffer e')) /\
  (forall r, In r (update_buffer e') -> In r (update_buffer e) \/ newly b e r) /\
  (NoDup (update_buffer e) -> NoDup (update_buffer e')).
Proof.
  unfold update. destruct (id b) eqn:I.
  - (* Wire *)
    unfold Wire_update.
    set (self1 := set_state b (<["signal" := VInt 0]> (state b))).
    destruct (state self1 !! "facing") as [f|]; [|discriminate].
    destruct (get_surrounding_block (bcoords self1) f) as [ns|x] eqn:N;
      [|discriminate].
    intros Hrun.
    destruct (Wire_loop_effect ns self1 e b' e' Hrun)
      as (Hi & Hc & Hl & Hb & Ht & Hsub & Hnew & Hnd).
    rewrite Hi, Hc. cbn [id bcoords self1 set_state]. repeat split; auto.
    intros r H. destruct (Hnew r H) as [H'|(Hin & nb & E & Hid & Hle)]; [auto|].
    right. split; [eapply get_surrounding_block_neq; [exact N|exact Hin]|].
    exists nb. auto.
  - (* Power *)
    unfold Power_update. rewrite get_surrounding_block_all.
    intros [= <- <-].
    destruct (Power_loop_effect (cardinal (bcoords b)) e)
      as (Hb & Ht & Hsub & Hnew & Hnd).
    cbn [id bcoords last_updated set_last_updated]. rewrite Hb, Ht.
    repeat split; auto.
    intros r H. destruct (Hnew r H) as [H'|(Hin & nb & E & Hid & Hne)]; [auto|].
    right. split.
    + eapply get_surrounding_block_neq;
        [apply get_surrounding_block_all|exact Hin].
    + exists nb. auto.
  - (* Delayer *)
    intros Hrun.
    destruct (Delayer_update_effect b b' e e' Hrun)
      as (Hi & Hc & Hb & Ht & Hl & Hsub & Hnew & Hnd).
    rewrite Hi. repeat split; auto. intros [H|H]; congruence.
  - (* Air *)
    unfold Air_update. intros [= <- <-]. repeat split; auto.
    intros [H|H]; congruence.
Qed.

(** ** The pending set and the block map *)

Lemma delete_lookup_facts (l : list coords) : forall (i : nat) (r : coords),
  l !! i = Some r ->
  In r l /\ (forall x, In x (delete i l) -> In x l) /\
  (forall x, In x l -> x = r \/ In x (delete i l)) /\
  (NoDup l -> ~ In r (delete i l) /\ NoDup (delete i l)) /\
  (length (delete i l) < length l)%nat.
Proof.
  induction l as [|a l IH]; intros i r H; [discriminate|].
  destruct i as [|i]; cbn in H.
  - injection H as ->. cbn.
    split; [left; reflexivity|].
    split; [intros x Hx; right; exact Hx|].
    split; [intros x [<-|Hx]; auto|].
    split; [|lia].
    intros Hnd. apply NoDup_cons in Hnd as [Ha Hl].
    split; [rewrite <- list_elem_of_In; exact Ha|exact Hl].
  - destruct (IH i r H) as (Hin & Hsub & Hsup & Hnd & Hlen). cbn.
    split; [right; exact Hin|].
    split; [intros x [<-|Hx]; [left; reflexivity|right; apply Hsub, Hx]|].
    split.
    { intros x [<-|Hx]; [right; left; reflexivity|].
      destruct (Hsup x Hx); auto. }
    split; [|exact (proj1 (Nat.succ_lt_mono _ _) Hlen)].
    intros Hnd0. apply NoDup_cons in Hnd0 as [Ha Hl].
    destruct (Hnd Hl) as [N1 N2]. split.
    + intros [<-|Hx]; [apply Ha, list_elem_of_In, Hin|exact (N1 Hx)].
    + apply NoDup_cons. split; [|exact N2].
      rewrite list_elem_of_In. intros Hx. apply Ha, list_elem_of_In, Hsub, Hx.
Qed.

Section PopFacts.

Variable pop_index : list coords -> nat.

Lemma pop_None (buf : list coords) : pop pop_index buf = None -> buf = [].
Proof.
  unfold pop. destruct buf as [|a buf]; [reflexivity|].
  destruct (_ !! _) eqn:E; [discriminate|].
  apply lookup_ge_None in E. cbn [length] in E.
  pose proof (Nat.mod_upper_bound (pop_index (a :: buf)) (S (length buf))).
  lia.
Qed.

Lemma pop_Some (buf : list coords) (r : coords) (rest : list coords) :
  pop pop_index buf = Some (r, rest) ->
  In r buf /\ (forall x, In x rest -> In x buf) /\
  (forall x, In x buf -> x = r \/ In x rest) /\
  (NoDup buf -> ~ In r rest /\ NoDup rest) /\
  (length rest < length buf)%nat.
Proof.
  unfold pop. destruct (_ !! _) eqn:E; [|discriminate].
  intros [= <- <-]. eapply delete_lookup_facts, E.
Qed.

Lemma pop_singleton (k : coords) : pop pop_index [k] = Some (k, []).
Proof.
  unfold pop. cbn [length]. rewrite Nat.mod_1_r. reflexivity.
Qed.

End PopFacts.

Lemma assoc_set_keys (l : list (coords * Block)) (r : coords) (b : Block) :
  map fst (assoc_set l r b) = map fst l.
Proof.
  induction l as [|[k b0] l IH]; cbn; [reflexivity|].
  destruct (coords_eqb k r); cbn; congruence.
Qed.

Lemma coords_eqb_sym (a b : coords) : coords_eqb a b = coords_eqb b a.
Proof.
  destruct (coords_eqb a b) eqn:E, (coords_eqb b a) eqn:E'; auto.
  - apply coords_eqb_eq in E. subst. rewrite coords_eqb_refl in E'. discriminate.
  - apply coords_eqb_eq in E'. subst. rewrite coords_eqb_refl in E. discriminate.
Qed.

Lemma assoc_get_set (l : list (coords * Block)) (r k : coords) (b b' : Block) :
  assoc_get l r = Some b ->
  assoc_get (assoc_set l r b') k
  = if coords_eqb r k then Some b' else assoc_get l k.
Proof.
  induction l as [|[k0 b0] l IH]; cbn; [discriminate|].
  destruct (coords_eqb k0 r) eqn:E.
  - apply coords_eqb_eq in E. subst k0. intros _. cbn.
    destruct (coords_eqb r k); reflexivity.
  - intros H. cbn. destruct (coords_eqb k0 k) eqn:E'.
    + apply coords_eqb_eq in E'. subst k0. rewrite (coords_eqb_sym r k), E.
      reflexivity.
    + apply IH, H.
Qed.

Lemma assoc_set_same (l : list (coords * Block)) (r : coords) (b : Block) :
  assoc_get l r = Some b -> assoc_set l r b = l.
Proof.
  induction l as [|[k0 b0] l IH]; cbn; [reflexivity|].
  destruct (coords_eqb k0 r); [intros [= ->]; reflexivity|].
  intros H. rewrite (IH H). reflexivity.
Qed.

Lemma updates_of_snoc (log : list coords) (r x : coords) :
  updates_of (log ++ [x]) r
  = (updates_of log r + (if coords_eqb r x then 1 else 0))%nat.
Proof.
  unfold updates_of. induction log as [|a log IH]; cbn.
  - destruct (coords_eqb r x); reflexivity.
  - destruct (coords_eqb r a); cbn; rewrite IH; reflexivity.
Qed.

Lemma assoc_get_In_keys (l : list (coords * Block)) (k : coords) (b : Block) :
  assoc_get l k = Some b -> In k (map fst l).
Proof.
  induction l as [|[k0 b0] l IH]; cbn; [discriminate|].
  destruct (coords_eqb k0 k) eqn:E; [|auto].
  apply coords_eqb_eq in E. auto.
Qed.

(** ** One step of the pending-set loop *)

Lemma drain_step_inv (e0 e : Engine) (log rest : list coords) (r : coords)
    (b b' : Block) (e1 : Engine) :
  world_inv e0 e log -> buffer_inv e ->
  In r (update_buffer e) -> ~ In r rest -> NoDup rest ->
  (forall x, In x rest -> In x (update_buffer e)) ->
  assoc_get (blocks e) r = Some b ->
  update b (with_buffer e rest) = Returned b' e1 ->
  let e' := with_blocks e1 (assoc_set (blocks e1) r b') in
  world_inv e0 e' (log ++ [r]) /\ buffer_inv e' /\
  (forall k, settled e k -> settled e' k) /\ settled e' r /\
  (forall x, In x rest -> In x (update_buffer e')) /\
  ((last_updated b' = tick e /\ last_updated b < tick e) \/
   (blocks e' = blocks e /\ update_buffer e' = rest)).
Proof.
  intros (Wt & Wk & Wb & Wo) (Bn & Bs) Hr Hnr Hnd Hsub Hb Hu e'.
  destruct (update_effect b b' (with_buffer e rest) e1 Hu)
    as (Ui & Uc & Ub & Ut & Ul & Uw & Usub & Unew & Und).
  cbn [blocks tick update_buffer with_buffer] in Ub, Ut, Ul, Usub, Unew, Und.
  destruct (Wb r b Hb) as (Hbc & Hble & Hbo).
  destruct (Bs r Hr) as (b_ & Hb_ & Hblt). rewrite Hb in Hb_.
  injection Hb_ as <-.
  assert (Hget : forall k, assoc_get (blocks e') k
                 = if coords_eqb r k then Some b' else assoc_get (blocks e) k).
  { intros k. subst e'. cbn [blocks with_blocks]. rewrite Ub.
    apply assoc_get_set with (b := b). exact Hb. }
  assert (Ht' : tick e' = tick e) by (subst e'; cbn; exact Ut).
  assert (Hbuf' : update_buffer e' = update_buffer e1) by reflexivity.
  assert (Hl' : last_updated b' <= tick e0).
  { destruct Ul as [Ul|[-> _]]; [rewrite Ul, Wt; lia|exact Hble]. }
  split; [|split; [|split; [|split; [|split]]]].
  - (* world_inv *)
    split; [congruence|]. split.
    { subst e'. cbn [blocks with_blocks]. rewrite assoc_set_keys, Ub. exact Wk. }
    split.
    + intros k bk. rewrite Hget. destruct (coords_eqb r k) eqn:E.
      * apply coords_eqb_eq in E. subst k. intros [= <-].
        split; [congruence|]. split; [exact Hl'|].
        destruct Ul as [Ul|[-> _]]; [left; congruence|exact Hbo].
      * apply Wb.
    + intros k bk. rewrite Hget, updates_of_snoc, (coords_eqb_sym k r).
      destruct (coords_eqb r k) eqn:E.
      * apply coords_eqb_eq in E. subst k. intros [= <-] Hid.
        rewrite Ui in Hid. specialize (Uw Hid).
        destruct (Wo r b Hb Hid) as [_ Hz].
        rewrite Hz by lia. split; [lia|]. intros Hne.
        exfalso. apply Hne. rewrite Uw. exact Wt.
      * intros Hk Hid. destruct (Wo k bk Hk Hid) as [H1 H2].
        rewrite Nat.add_0_r. auto.
  - (* buffer_inv *)
    split; [rewrite Hbuf'; apply Und, Hnd|].
    intros x Hx. rewrite Hbuf' in Hx. rewrite Hget, Ht'.
    destruct (Unew x Hx) as [Hin|(Hne & nb & Hnb & Hid & Hl)].
    + assert (E : coords_eqb r x = false)
        by (apply coords_eqb_neq; intros <-; exact (Hnr Hin)).
      rewrite E. apply Bs, Hsub, Hin.
    + assert (E : coords_eqb r x = false)
        by (apply coords_eqb_neq; congruence).
      rewrite E. exists nb. split; [exact Hnb|].
      destruct (Wb x nb Hnb) as (_ & Hle & _). rewrite Wt.
      cbn [tick with_buffer] in Hl. rewrite Wt in Hl, Hblt. destruct Hl; lia.
  - (* settled is stable *)
    intros k Hk bk. rewrite Hget, Ht'. destruct (coords_eqb r k) eqn:E.
    + apply coords_eqb_eq in E. subst k. intros [= <-].
      destruct Ul as [Ul|[-> _]]; [left; exact Ul|apply Hk, Hb].
    + apply Hk.
  - (* the block just updated is settled *)
    intros bk. rewrite Hget, coords_eqb_refl, Ht'. intros [= <-].
    destruct (id b) eqn:I; rewrite Ui; auto; left; apply Uw; auto.
  - intros x Hx. rewrite Hbuf'. apply Usub, Hx.
  - destruct Ul as [Ul|[-> Hsame]]; [left; split; [exact Ul|exact Hblt]|].
    right. split; [|rewrite Hbuf'; exact Hsame].
    subst e'. cbn [blocks with_blocks]. rewrite Ub.
    apply assoc_set_same, Hb.
Qed.

(** ** The loops of the tick, when they finish *)

Section TickFacts.

Variable pop_index : list coords -> nat.
Variable e0 : Engine.

Lemma drain_finished (fuel : nat) :
  forall (e : Engine) (log : list coords) (e' : Engine) (log' : list coords),
  world_inv e0 e log -> buffer_inv e ->
  drain pop_index fuel e log = Finished e' log' ->
  world_inv e0 e' log' /\ update_buffer e' = [] /\
  (forall k, settled e k -> settled e' k) /\
  (forall r, In r (update_buffer e) -> settled e' r).
Proof.
  induction fuel as [|fuel IH]; intros e log e' log' Hw Hbi Hrun.
  - cbn [drain] in Hrun.
    destruct (pop pop_index (update_buffer e)) as [[r rest]|] eqn:P;
      [discriminate|].
    injection Hrun as <- <-. apply pop_None in P. rewrite P.
    split; [exact Hw|]. split; [reflexivity|]. split; [auto|]. intros r [].
  - cbn [drain] in Hrun.
    destruct (pop pop_index (update_buffer e)) as [[r rest]|] eqn:P.
    + destruct (pop_Some pop_index _ _ _ P) as (Hr & Hsub & Hsup & Hnd & _).
      destruct (Hnd (proj1 Hbi)) as [Hnr Hnd'].
      destruct (proj2 Hbi r Hr) as (b & Hb & Hlt).
      cbn [blocks with_buffer] in Hrun. rewrite Hb in Hrun.
      destruct (update b (with_buffer e rest)) as [b' e1|x b' e1] eqn:U;
        [|discriminate].
      destruct (drain_step_inv e0 e log rest r b b' e1 Hw Hbi Hr Hnr Hnd' Hsub Hb U)
        as (Hw' & Hbi' & Hst & Hsr & Hrest & _).
      destruct (IH _ _ _ _ Hw' Hbi' Hrun) as (Hw'' & Hemp & Hst' & Hall).
      split; [exact Hw''|]. split; [exact Hemp|]. split; [auto|].
      intros x Hx. destruct (Hsup x Hx) as [->|Hx']; auto.
    + injection Hrun as <- <-. apply pop_None in P. rewrite P.
      split; [exact Hw|]. split; [reflexivity|]. split; [auto|]. intros r [].
Qed.

Lemma scan_finished (fuel : nat) (keys : list coords) :
  forall (e : Engine) (log : list coords) (e' : Engine) (log' : list coords),
  world_inv e0 e log ->
  scan pop_index fuel keys e log = Finished e' log' ->
  exists e1, e' = with_tick e1 (tick e1 + 1) /\ world_inv e0 e1 log' /\
    (forall k, settled e k -> settled e1 k) /\
    (forall k, In k keys -> settled e1 k).
Proof.
  induction keys as [|k ks IH]; intros e log e' log' Hw Hrun; cbn [scan] in Hrun.
  - injection Hrun as <- <-. exists e.
    split; [reflexivity|]. split; [exact Hw|]. split; [auto|]. intros x [].
  - destruct (assoc_get (blocks e) k) as [b|] eqn:Hb.
    + destruct (Z.eqb_spec (last_updated b) (tick e)) as [Hl|Hl].
      * destruct (IH _ _ _ _ Hw Hrun) as (e1 & -> & Hw1 & Hst & Hall).
        exists e1. split; [reflexivity|]. split; [exact Hw1|].
        split; [exact Hst|]. intros x [<-|Hx]; [|auto].
        apply Hst. intros b0 Hb0. rewrite Hb in Hb0. injection Hb0 as <-. auto.
      * destruct (drain pop_index fuel (with_buffer e [k]) log)
          as [e2 log2| |] eqn:D; try discriminate.
        assert (Hbi : buffer_inv (with_buffer e [k])).
        { split; [apply NoDup_singleton|]. intros r [<-|[]]. exists b.
          split; [exact Hb|]. cbn [tick with_buffer].
          destruct Hw as (Wt & _ & Wb & _). destruct (Wb k b Hb) as (_ & Hle & _).
          lia. }
        destruct (drain_finished fuel (with_buffer e [k]) log e2 log2 Hw Hbi D)
          as (Hw2 & _ & Hst2 & Hk2).
        destruct (IH _ _ _ _ Hw2 Hrun) as (e1 & -> & Hw1 & Hst & Hall).
        exists e1. split; [reflexivity|]. split; [exact Hw1|]. split.
        -- intros x Hx. apply Hst, Hst2, Hx.
        -- intros x [<-|Hx]; [|auto]. apply Hst, Hk2. left; reflexivity.
    + destruct (IH _ _ _ _ Hw Hrun) as (e1 & -> & Hw1 & Hst & Hall).
      exists e1. split; [reflexivity|]. split; [exact Hw1|].
      split; [exact Hst|]. intros x [<-|Hx]; [|auto].
      apply Hst. intros b0 Hb0. rewrite Hb in Hb0. discriminate.
Qed.

End TickFacts.

Lemma world_inv_start (e : Engine) : well_formed e -> world_inv e e [].
Proof.
  intros Hwf. split; [reflexivity|]. split; [reflexivity|]. split.
  - intros k b Hb. destruct (Hwf k b Hb). auto.
  - intros r b _ _. cbn. split; [lia|reflexivity].
Qed.

Lemma world_blocked_well_formed : well_formed world_blocked.
Proof.
  intros k b H. unfold world_blocked in H. cbn [blocks assoc_get] in H.
  repeat match type of H with
         | (if ?c then _ else _) = _ => destruct c eqn:?
         end; try discriminate;
    injection H as <-; cbn; rewrite <- coords_eqb_eq; split; auto; lia.
Qed.

(** C1, as the claim states it, fails on [world_blocked]: the tick that
    runs there is tick 2; it returns; the update of the delayer at (0,0,0)
    was invoked twice, once scheduled by the power source and once by the
    scan; and the delayer is left with [last_updated = 0]. *)
Lemma tick_ahead_blocked_delayer :
  tick world_blocked = 2 /\
  exists e', tick_ahead pop_oldest 4 world_blocked
             = Finished e' [(1, 0, 0); (0, 0, 0); (0, 0, 0)] /\
    last_updated <$> assoc_get (blocks e') (0, 0, 0) = Some 0 /\
    updates_of [(1, 0, 0); (0, 0, 0); (0, 0, 0)] (0, 0, 0) = 2%nat.
Proof.
  split; [reflexivity|]. eexists. split; [vm_compute; reflexivity|].
  split; vm_compute; reflexivity.
Qed.

(** ** Termination of the tick *)

Lemma filter_length_le {A} (p q : A -> bool) (l : list A) :
  (forall x, In x l -> q x = true -> p x = true) ->
  (length (List.filter q l) <= length (List.filter p l))%nat.
Proof.
  induction l as [|a l IH]; intros H; cbn; [lia|].
  assert (IH' := IH (fun x Hx => H x (or_intror Hx))).
  destruct (q a) eqn:Q.
  - rewrite (H a (or_introl eq_refl) Q). cbn. lia.
  - destruct (p a); cbn; lia.
Qed.

Lemma filter_length_lt {A} (p q : A -> bool) (l : list A) (a : A) :
  (forall x, In x l -> q x = true -> p x = true) ->
  In a l -> p a = true -> q a = false ->
  (length (List.filter q l) < length (List.filter p l))%nat.
Proof.
  induction l as [|x l IH]; intros H Hin Hp Hq; [destruct Hin|]. cbn.
  assert (Hle := filter_length_le p q l (fun y Hy => H y (or_intror Hy))).
  destruct Hin as [->|Hin].
  - rewrite Hp, Hq. cbn. lia.
  - assert (IH' := IH (fun y Hy => H y (or_intror Hy)) Hin Hp Hq).
    destruct (q x) eqn:Q.
    + rewrite (H x (or_introl eq_refl) Q). cbn. lia.
    + destruct (p x); cbn; lia.
Qed.

Lemma unstamped_decreases (e e' : Engine) (r : coords) (b b' : Block) :
  assoc_get (blocks e) r = Some b ->
  last_updated b <> tick e -> last_updated b' = tick e ->
  tick e' = tick e -> blocks e' = assoc_set (blocks e) r b' ->
  (unstamped e' < unstamped e)%nat.
Proof.
  intros Hb Hne Hst Ht Hbl. unfold unstamped.
  rewrite Hbl, assoc_set_keys, Ht.
  apply filter_length_lt with (a := r).
  - intros k _. rewrite (assoc_get_set _ r k b b' Hb).
    destruct (coords_eqb r k); [|auto].
    rewrite Hst, Z.eqb_refl. discriminate.
  - eapply assoc_get_In_keys, Hb.
  - rewrite Hb. apply negb_true_iff, Z.eqb_neq, Hne.
  - rewrite (assoc_get_set _ r r b b' Hb), coords_eqb_refl, Hst, Z.eqb_refl.
    reflexivity.
Qed.

Section Termination.

Variable pop_index : list coords -> nat.
Variable e0 : Engine.

Lemma drain_unfold (fuel : nat) (e : Engine) (log : list coords)
    (r : coords) (rest : list coords) (b : Block) :
  pop pop_index (update_buffer e) = Some (r, rest) ->
  assoc_get (blocks e) r = Some b ->
  drain pop_index (S fuel) e log
  = match update b (with_buffer e rest) with
    | Returned b' e1 =>
        drain pop_index fuel (with_blocks e1 (assoc_set (blocks e1) r b'))
              (log ++ [r])
    | Raised x b' e1 =>
        Crashed x (with_blocks e1 (assoc_set (blocks e1) r b')) (log ++ [r])
    end.
Proof.
  intros P Hb. cbn [drain]. rewrite P. cbn [blocks with_buffer]. rewrite Hb.
  reflexivity.
Qed.

Lemma drain_empty (fuel : nat) (e : Engine) (log : list coords) :
  pop pop_index (update_buffer e) = None ->
  drain pop_index fuel e log = Finished e log.
Proof. intros P. destruct fuel; cbn [drain]; rewrite P; reflexivity. Qed.

Lemma drain_terminates (n : nat) :
  forall (m : nat) (e : Engine) (log : list coords),
  world_inv e0 e log -> buffer_inv e ->
  (unstamped e <= n)%nat -> (length (update_buffer e) <= m)%nat ->
  ends (fun fuel => drain pop_index fuel e log).
Proof.
  induction n as [n IHn] using lt_wf_ind.
  induction m as [|m IHm]; intros e log Hw Hbi Hn Hm;
    destruct (pop pop_index (update_buffer e)) as [[r rest]|] eqn:P;
    try (exists 0%nat, (Finished e log); split; [discriminate|];
         intros fuel' _; apply drain_empty, P).
  - destruct (pop_Some pop_index _ _ _ P) as (_ & _ & _ & _ & Hlen). lia.
  - destruct (pop_Some pop_index _ _ _ P) as (Hr & Hsub & Hsup & Hnd & Hlen).
    destruct (Hnd (proj1 Hbi)) as [Hnr Hnd'].
    destruct (proj2 Hbi r Hr) as (b & Hb & Hlt).
    destruct (update b (with_buffer e rest)) as [b' e1|x b' e1] eqn:U.
    + destruct (drain_step_inv e0 e log rest r b b' e1 Hw Hbi Hr Hnr Hnd' Hsub Hb U)
        as (Hw' & Hbi' & _ & _ & _ & Hmeasure).
      set (e' := with_blocks e1 (assoc_set (blocks e1) r b')) in *.
      assert (Ht : tick e' = tick e)
        by (destruct Hw as [-> _], Hw' as [-> _]; reflexivity).
      assert (Hends : ends (fun fuel => drain pop_index fuel e' (log ++ [r]))).
      { destruct Hmeasure as [[Hst _]|[Hbl Hbuf]].
        - destruct (update_effect b b' _ e1 U) as (_ & _ & Ub & _).
          cbn [blocks with_buffer] in Ub.
          assert (unstamped e' < unstamped e)%nat.
          { apply unstamped_decreases with (r := r) (b := b) (b' := b'); auto.
            - lia.
            - subst e'. cbn [blocks with_blocks]. rewrite Ub. reflexivity. }
          apply (IHn (unstamped e') ltac:(lia) (length (update_buffer e')));
            auto.
        - apply IHm; auto.
          + unfold unstamped. rewrite Hbl, Ht. exact Hn.
          + rewrite Hbuf. lia. }
      destruct Hends as (fuel1 & r1 & Hr1 & Hall).
      exists (S fuel1), r1. split; [exact Hr1|].
      intros fuel' Hf. destruct fuel' as [|f]; [lia|].
      rewrite (drain_unfold f e log r rest b P Hb), U. apply Hall. lia.
    + exists 1%nat, (Crashed x (with_blocks e1 (assoc_set (blocks e1) r b'))
                            (log ++ [r])).
      split; [discriminate|].
      intros fuel' Hf. destruct fuel' as [|f]; [lia|].
      rewrite (drain_unfold f e log r rest b P Hb), U. reflexivity.
Qed.

End Termination.

Section ScanTermination.

Variable pop_index : list coords -> nat.
Variable e0 : Engine.

Lemma scan_skip (fuel : nat) (k : coords) (ks : list coords) (e : Engine)
    (log : list coords) :
  (forall b, assoc_get (blocks e) k = Some b -> last_updated b = tick e) ->
  scan pop_index fuel (k :: ks) e log = scan pop_index fuel ks e log.
Proof.
  intros H. cbn [scan]. destruct (assoc_get (blocks e) k) as [b|]; [|reflexivity].
  rewrite (H b eq_refl), Z.eqb_refl. reflexivity.
Qed.

Lemma scan_terminates (keys : list coords) :
  forall (e : Engine) (log : list coords),
  world_inv e0 e log ->
  ends (fun fuel => scan pop_index fuel keys e log).
Proof.
  induction keys as [|k ks IH]; intros e log Hw.
  - exists 0%nat, (Finished (with_tick e (tick e + 1)) log).
    split; [discriminate|]. reflexivity.
  - destruct (assoc_get (blocks e) k) as [b|] eqn:Hb.
    + destruct (Z.eq_dec (last_updated b) (tick e)) as [Hl|Hl].
      * destruct (IH e log Hw) as (fuel & r & Hr & Hall).
        exists fuel, r. split; [exact Hr|]. intros fuel' Hf.
        rewrite scan_skip; [apply Hall, Hf|].
        intros b0 Hb0. congruence.
      * assert (Hbi : buffer_inv (with_buffer e [k])).
        { split; [apply NoDup_singleton|]. intros r [<-|[]]. exists b.
          split; [exact Hb|]. cbn [tick with_buffer].
          destruct Hw as (Wt & _ & Wb & _). destruct (Wb k b Hb) as (_ & Hle & _).
          lia. }
        destruct (drain_terminates pop_index e0 _ _ (with_buffer e [k]) log
                    Hw Hbi (Nat.le_refl _) (Nat.le_refl _))
          as (fuel1 & r1 & Hr1 & Hall1).
        assert (Hstep : forall fuel',
                  scan pop_index fuel' (k :: ks) e log
                  = match drain pop_index fuel' (with_buffer e [k]) log with
                    | Finished e' log' => scan pop_index fuel' ks e' log'
                    | Crashed x e' log' => Crashed x e' log'
                    | OutOfFuel => OutOfFuel
                    end).
        { intros fuel'. cbn [scan]. rewrite Hb.
          destruct (Z.eqb_spec (last_updated b) (tick e)); [contradiction|].
          reflexivity. }
        destruct r1 as [e2 log2|x e2 log2|]; [| |contradiction].
        -- assert (Hw2 : world_inv e0 e2 log2).
           { exact (proj1 (drain_finished pop_index e0 fuel1 (with_buffer e [k])
                             log e2 log2 Hw Hbi (Hall1 fuel1 (Nat.le_refl _)))). }
           destruct (IH e2 log2 Hw2) as (fuel2 & r2 & Hr2 & Hall2).
           exists (Nat.max fuel1 fuel2), r2. split; [exact Hr2|].
           intros fuel' Hf. rewrite Hstep, Hall1 by lia. apply Hall2. lia.
        -- exists fuel1, (Crashed x e2 log2). split; [discriminate|].
           intros fuel' Hf. rewrite Hstep, Hall1 by lia. reflexivity.
    + destruct (IH e log Hw) as (fuel & r & Hr & Hall).
      exists fuel, r. split; [exact Hr|]. intros fuel' Hf.
      rewrite scan_skip; [apply Hall, Hf|].
      intros b0 Hb0. congruence.
Qed.

End ScanTermination.

(** C9, as the code has it. In a world whose blocks are stored under their
    own coordinates and are not stamped with a later tick, [tick_ahead]
    ends, whichever element [set.pop] picks: with enough fuel it returns,
    or an exception of an [update] comes out of it. Nothing is asked of
    the updates: the scan goes on from where it stopped, so a block whose
    update returns without stamping is not selected by the scan again. *)
Theorem tick_ahead_terminates (pop_index : list coords -> nat) (e : Engine) :
  well_formed e ->
  ends (fun fuel => tick_ahead pop_index fuel e).
Proof.
  intros Hwf. unfold tick_ahead.
  apply scan_terminates with (e0 := e). apply world_inv_start, Hwf.
Qed.

Lemma tick_ahead_terminates_witness :
  ends (fun fuel => tick_ahead pop_oldest fuel world_blocked).
Proof.
  apply tick_ahead_terminates. exact world_blocked_well_formed.
Defined.

(** C9, as the claim states it, fails on [world_blocked]: the update of
    the stored delayer returns without setting [last_updated], which stays
    different from the tick, and [tick_ahead] returns all the same, after
    three updates. *)
Lemma tick_ahead_returns_despite_blocked_delayer :
  assoc_get (blocks world_blocked) (0, 0, 0) = Some delayer_blocked /\
  last_updated delayer_blocked <> tick world_blocked /\
  (exists e1, update delayer_blocked world_blocked = Returned delayer_blocked e1) /\
  (exists e' log, tick_ahead pop_oldest 4 world_blocked = Finished e' log /\
                  length log = 3%nat).
Proof.
  split; [reflexivity|]. split; [discriminate|]. split.
  - eexists. vm_compute. reflexivity.
  - eexists _, _. split; vm_compute; reflexivity.
Qed.

(** ** A block stamped ahead of the tick

    Why [well_formed] asks that no block is stamped with a later tick:
    [Wire.update] schedules a neighbour when
    [block.last_updated <= self.last_updated], and with a wire stamped
    ahead of the tick two wires keep scheduling each other. *)

Section Ahead.

Variable pop_index : list coords -> nat.

Lemma update_wire_a (l : Z) (u : nat) :
  l = 5 \/ l = 1 ->
  update (wire_a l) (with_buffer (world_ahead l [(0, 0, 0)] u) [])
  = Returned (wire_a 1) (world_ahead l [(1, 0, 0)] (S u)).
Proof. intros [-> | ->]; vm_compute; reflexivity. Qed.

Lemma update_wire_b (u : nat) :
  update wire_b (with_buffer (world_ahead 1 [(1, 0, 0)] u) [])
  = Returned wire_b (world_ahead 1 [(0, 0, 0)] (S u)).
Proof. vm_compute. reflexivity. Qed.

Lemma drain_ahead_a (fuel : nat) (l : Z) (u : nat) (log : list coords) :
  l = 5 \/ l = 1 ->
  drain pop_index (S fuel) (world_ahead l [(0, 0, 0)] u) log
  = drain pop_index fuel (world_ahead 1 [(1, 0, 0)] (S u)) (log ++ [(0, 0, 0)]).
Proof.
  intros Hl.
  rewrite (drain_unfold pop_index fuel (world_ahead l [(0, 0, 0)] u) log
             (0, 0, 0) [] (wire_a l) (pop_singleton pop_index (0, 0, 0)) eq_refl).
  rewrite (update_wire_a l u Hl). reflexivity.
Qed.

Lemma drain_ahead_b (fuel : nat) (u : nat) (log : list coords) :
  drain pop_index (S fuel) (world_ahead 1 [(1, 0, 0)] u) log
  = drain pop_index fuel (world_ahead 1 [(0, 0, 0)] (S u)) (log ++ [(1, 0, 0)]).
Proof.
  rewrite (drain_unfold pop_index fuel (world_ahead 1 [(1, 0, 0)] u) log
             (1, 0, 0) [] wire_b (pop_singleton pop_index (1, 0, 0)) eq_refl).
  rewrite (update_wire_b u). reflexivity.
Qed.

Lemma drain_ahead_diverges (fuel : nat) :
  forall (u : nat) (log : list coords),
  (forall l, l = 5 \/ l = 1 ->
     drain pop_index fuel (world_ahead l [(0, 0, 0)] u) log = OutOfFuel) /\
  drain pop_index fuel (world_ahead 1 [(1, 0, 0)] u) log = OutOfFuel.
Proof.
  induction fuel as [|fuel IH]; intros u log.
  - split; [intros l _|]; cbn [drain update_buffer world_ahead];
      rewrite pop_singleton; reflexivity.
  - split.
    + intros l Hl. rewrite (drain_ahead_a fuel l u log Hl). apply IH.
    + rewrite drain_ahead_b. apply IH. right; reflexivity.
Qed.

(** On [world_ahead 5 [] 2] both blocks are wires, whose update stamps the
    tick whenever it returns, and no amount of fuel lets [tick_ahead]
    finish. *)
Lemma tick_ahead_ahead_diverges (fuel : nat) :
  tick_ahead pop_index fuel (world_ahead 5 [] 2) = OutOfFuel.
Proof.
  unfold tick_ahead. cbn [map fst blocks world_ahead scan assoc_get].
  rewrite coords_eqb_refl. cbn [last_updated wire_a tick Z.eqb].
  change (with_buffer (world_ahead 5 [] 2) [(0, 0, 0)])
    with (world_ahead 5 [(0, 0, 0)] 2).
  rewrite (proj1 (drain_ahead_diverges fuel 2%nat []) 5 (or_introl eq_refl)).
  reflexivity.
Qed.

End Ahead.

(** On [world_ahead_pair] the tick returns, and the wire at (1,0,0) was
    updated twice: once by the scan and once more because the wire stamped
    ahead of the tick scheduled it. *)
Lemma tick_ahead_ahead_updates_twice :
  exists e', tick_ahead pop_oldest 4 world_ahead_pair
             = Finished e' [(1, 0, 0); (0, 0, 0); (1, 0, 0)].
Proof. eexists. vm_compute. reflexivity. Qed.

(** * Further properties *)

(** ** Placing blocks *)

Lemma assoc_get_put (l : list (coords * Block)) (c k : coords) (b : Block) :
  assoc_get (assoc_put l c b) k
  = if coords_eqb c k then Some b else assoc_get l k.
Proof.
  induction l as [|[k0 b0] l IH]; cbn.
  - reflexivity.
  - destruct (coords_eqb k0 c) eqn:E.
    + apply coords_eqb_eq in E. subst k0. cbn.
      destruct (coords_eqb c k); reflexivity.
    + cbn. destruct (coords_eqb k0 k) eqn:E'; [|exact IH].
      apply coords_eqb_eq in E'. subst k0.
      rewrite (coords_eqb_sym c k), E. reflexivity.
Qed.

Lemma assoc_put_keys (l : list (coords * Block)) (c : coords) (b : Block) :
  map fst (assoc_put l c b)
  = if existsb (coords_eqb c) (map fst l) then map fst l else map fst l ++ [c].
Proof.
  induction l as [|[k0 b0] l IH]; cbn; [reflexivity|].
  rewrite (coords_eqb_sym c k0).
  destruct (coords_eqb k0 c); cbn; [reflexivity|].
  rewrite IH. destruct (existsb (coords_eqb c) (map fst l)); reflexivity.
Qed.

Lemma existsb_coords_In (c : coords) (l : list coords) :
  existsb (coords_eqb c) l = true <-> In c l.
Proof.
  rewrite existsb_exists. split.
  - intros (x & Hx & E). apply coords_eqb_eq in E. subst. exact Hx.
  - intros H. exists c. split; [exact H|apply coords_eqb_refl].
Qed.

Lemma find_snoc {A} (p : A -> bool) (l : list A) (a : A) :
  List.find p (l ++ [a])
  = match List.find p l with
    | Some x => Some x
    | None => if p a then Some a else None
    end.
Proof.
  induction l as [|x l IH]; cbn; [reflexivity|].
  destruct (p x); [reflexivity|exact IH].
Qed.

Lemma fold_put_get (bs : list Block) (c : coords) :
  forall l : list (coords * Block),
  assoc_get (fold_left (fun l b => assoc_put l (bcoords b) b) bs l) c
  = match List.find (fun b => coords_eqb (bcoords b) c) (rev bs) with
    | Some b => Some b
    | None => assoc_get l c
    end.
Proof.
  induction bs as [|b bs IH]; intros l; cbn [fold_left rev].
  - reflexivity.
  - rewrite IH, find_snoc, assoc_get_put.
    destruct (List.find _ (rev bs)); [reflexivity|].
    destruct (coords_eqb (bcoords b) c); reflexivity.
Qed.

(** [get_block] after [add_blocks]: at a coordinate that one of the added
    blocks carries, the block found is the last such block of the list;
    at any other coordinate the map answers as before. *)
Theorem add_blocks_get_block (e : Engine) (bs : list Block) (c : coords) :
  assoc_get (blocks (add_blocks e bs)) c
  = match List.find (fun b => coords_eqb (bcoords b) c) (rev bs) with
    | Some b => Some b
    | None => assoc_get (blocks e) c
    end /\
  (forall b, List.find (fun b => coords_eqb (bcoords b) c) (rev bs) = Some b ->
             (get_block (add_blocks e bs) c).1 = b) /\
  ((forall b, In b bs -> bcoords b <> c) ->
   (get_block (add_blocks e bs) c).1 = (get_block e c).1).
Proof.
  assert (H : assoc_get (blocks (add_blocks e bs)) c
              = match List.find (fun b => coords_eqb (bcoords b) c) (rev bs) with
                | Some b => Some b
                | None => assoc_get (blocks e) c
                end) by (unfold add_blocks; cbn [blocks with_blocks]; apply fold_put_get).
  split; [exact H|]. split.
  - intros b Hb. apply get_block_stored. rewrite H, Hb. reflexivity.
  - intros Hno.
    assert (Hfind : List.find (fun b => coords_eqb (bcoords b) c) (rev bs) = None).
    { destruct (List.find _ (rev bs)) as [b|] eqn:F; [|reflexivity].
      apply find_some in F as [Hin E]. apply coords_eqb_eq in E.
      apply in_rev in Hin. destruct (Hno b Hin E). }
    rewrite Hfind in H. unfold get_block, new_Air. cbn [blocks fst tick uuid_next].
    rewrite H. reflexivity.
Qed.

Lemma assoc_put_shape (l : list (coords * Block)) (b : Block) :
  NoDup (map fst l) ->
  (forall k x, assoc_get l k = Some x -> bcoords x = k) ->
  let l' := assoc_put l (bcoords b) b in
  NoDup (map fst l') /\
  (forall k x, assoc_get l' k = Some x -> bcoords x = k) /\
  (exists tail, map fst l' = map fst l ++ tail) /\
  In (bcoords b) (map fst l').
Proof.
  intros Hnd Hown l'. subst l'. rewrite assoc_put_keys.
  split; [|split; [|split]].
  - destruct (existsb (coords_eqb (bcoords b)) (map fst l)) eqn:E; [exact Hnd|].
    apply NoDup_app. split; [exact Hnd|]. split; [|apply NoDup_singleton].
    intros x Hx Hx'. apply list_elem_of_In in Hx, Hx'. destruct Hx' as [<-|[]].
    apply existsb_coords_In in Hx. congruence.
  - intros k x. rewrite assoc_get_put.
    destruct (coords_eqb (bcoords b) k) eqn:E; [|apply Hown].
    apply coords_eqb_eq in E. intros [= <-]. exact E.
  - destruct (existsb _ _); [exists []; symmetry; apply app_nil_r|eauto].
  - destruct (existsb (coords_eqb (bcoords b)) (map fst l)) eqn:E.
    + apply existsb_coords_In, E.
    + apply in_or_app. right. left. reflexivity.
Qed.

Lemma fold_put_shape (bs : list Block) : forall l : list (coords * Block),
  NoDup (map fst l) ->
  (forall k x, assoc_get l k = Some x -> bcoords x = k) ->
  let l' := fold_left (fun l b => assoc_put l (bcoords b) b) bs l in
  NoDup (map fst l') /\
  (forall k x, assoc_get l' k = Some x -> bcoords x = k) /\
  (exists tail, map fst l' = map fst l ++ tail) /\
  (forall b, In b bs -> In (bcoords b) (map fst l')).
Proof.
  induction bs as [|b bs IH]; intros l Hnd Hown; cbn [fold_left].
  - split; [exact Hnd|]. split; [exact Hown|].
    split; [exists []; symmetry; apply app_nil_r|]. intros b [].
  - destruct (assoc_put_shape l b Hnd Hown) as (Pn & Po & (t1 & Pt) & Pi).
    destruct (IH _ Pn Po) as (Hn & Ho & (t2 & Ht) & Hi).
    split; [exact Hn|]. split; [exact Ho|]. split.
    + exists (t1 ++ t2). rewrite Ht, Pt, app_assoc. reflexivity.
    + intros x [<-|Hx]; [|apply Hi, Hx].
      rewrite Ht. apply in_or_app. left. exact Pi.
Qed.

(** [add_blocks] keeps the block map a map: on a map with one entry per
    coordinate whose blocks sit under their own coordinates, the result
    has one entry per coordinate, every block under its own coordinates,
    the old entries first and in their old order, and an entry for the
    coordinates of each added block. *)
Theorem add_blocks_shape (e : Engine) (bs : list Block) :
  NoDup (map fst (blocks e)) ->
  (forall k x, assoc_get (blocks e) k = Some x -> bcoords x = k) ->
  NoDup (map fst (blocks (add_blocks e bs))) /\
  (forall k x, assoc_get (blocks (add_blocks e bs)) k = Some x -> bcoords x = k) /\
  (exists tail, map fst (blocks (add_blocks e bs)) = map fst (blocks e) ++ tail) /\
  (forall b, In b bs -> In (bcoords b) (map fst (blocks (add_blocks e bs)))) /\
  tick (add_blocks e bs) = tick e /\
  update_buffer (add_blocks e bs) = update_buffer e.
Proof.
  intros Hnd Hown.
  destruct (fold_put_shape bs (blocks e) Hnd Hown) as (H1 & H2 & H3 & H4).
  unfold add_blocks. cbn [blocks tick update_buffer with_blocks]. auto 10.
Qed.

Lemma add_blocks_shape_witness :
  NoDup (map fst (blocks (add_blocks world_one_power [wire_north; wire_east]))).
Proof.
  refine (proj1 (add_blocks_shape world_one_power [wire_north; wire_east] _ _)).
  - cbn. apply NoDup_singleton.
  - intros k x H. unfold world_one_power in H. cbn [blocks assoc_get] in H.
    match type of H with (if ?c then _ else _) = _ => destruct c eqn:E end;
      [|discriminate].
    injection H as <-. apply coords_eqb_eq in E. exact E.
Defined.

(** ** Equality of blocks and the pending set *)

Lemma Block_eq_true (a b : Block) :
  Block_eq a b = true <-> id a = id b /\ gid a = gid b.
Proof.
  unfold Block_eq. rewrite andb_true_iff, BlockType_eqb_eq, Nat.eqb_eq.
  reflexivity.
Qed.

(** [__eq__] is an equivalence on blocks that looks at the class and the
    identity token only: blocks that differ in state, coordinates or
    [last_updated] alone are equal; and equal blocks have equal hashes,
    as a [set] of blocks needs. *)
Theorem Block_eq_equivalence (hash_str : nat -> Z) :
  (forall a, Block_eq a a = true) /\
  (forall a b, Block_eq a b = Block_eq b a) /\
  (forall a b c, Block_eq a b = true -> Block_eq b c = true -> Block_eq a c = true) /\
  (forall a s c t, Block_eq (mkBlock (id a) s c t (gid a)) a = true) /\
  (forall a b, Block_eq a b = true -> Block_hash hash_str a = Block_hash hash_str b).
Proof.
  split; [exact Block_eq_refl|]. split; [|split; [|split]].
  - intros a b. destruct (Block_eq a b) eqn:E, (Block_eq b a) eqn:E'; auto.
    + apply Block_eq_true in E as [H1 H2].
      assert (Block_eq b a = true) by (apply Block_eq_true; auto). congruence.
    + apply Block_eq_true in E' as [H1 H2].
      assert (Block_eq a b = true) by (apply Block_eq_true; auto). congruence.
  - intros a b c H1 H2. apply Block_eq_true in H1 as [? ?], H2 as [? ?].
    apply Block_eq_true. split; congruence.
  - intros a s c t. apply Block_eq_true. split; reflexivity.
  - intros a b H. apply Block_eq_true in H as [_ H]. unfold Block_hash.
    rewrite H. reflexivity.
Qed.

(** [schedule_update] has set semantics: on a stored block it leaves the
    block pending; doing it twice is doing it once; when a block equal
    under [__eq__] is pending already it changes nothing; and it never
    touches the block map or the tick. *)
Theorem schedule_update_idempotent (e : Engine) (r : coords) (b : Block) :
  assoc_get (blocks e) r = Some b ->
  buffer_mem (schedule_update e r b) b = true /\
  schedule_update (schedule_update e r b) r b = schedule_update e r b /\
  (buffer_mem e b = true -> schedule_update e r b = e) /\
  blocks (schedule_update e r b) = blocks e /\
  tick (schedule_update e r b) = tick e /\
  (NoDup (update_buffer e) -> NoDup (update_buffer (schedule_update e r b))).
Proof.
  intros Hb. pose proof (schedule_update_mem e r b Hb) as Hm.
  destruct (schedule_update_frame e r b) as (Fb & Ft & _).
  split; [exact Hm|]. split; [|split; [|split; [|split]]]; auto.
  - unfold schedule_update at 1. rewrite Hm. reflexivity.
  - intros H. unfold schedule_update. rewrite H. reflexivity.
  - apply schedule_update_NoDup, Hb.
Qed.

Lemma schedule_update_idempotent_witness :
  schedule_update (schedule_update world_power_wire (0, 0, 0) wire_north)
                  (0, 0, 0) wire_north
  = schedule_update world_power_wire (0, 0, 0) wire_north.
Proof.
  refine (proj1 (proj2 (schedule_update_idempotent world_power_wire (0, 0, 0)
                          wire_north _))).
  reflexivity.
Defined.

(** ** Topology *)

Ltac direction_cases s :=
  destruct (String.eqb_spec s "north") as [->|?];
  [|destruct (String.eqb_spec s "south") as [->|?];
    [|destruct (String.eqb_spec s "east") as [->|?];
      [|destruct (String.eqb_spec s "west") as [->|?]]]].

Lemma direction_lookup_known (c : coords) (k : value) :
  (exists n, direction_lookup c k = Val n) <-> known_direction k.
Proof.
  unfold known_direction, direction_lookup, opposite.
  destruct c as [[x y] z]. destruct k as [|i|s|l].
  - split; intros [? H]; discriminate.
  - split; intros [? H]; discriminate.
  - direction_cases s; split; intros [? H]; try discriminate; eauto.
  - split; intros [? H]; discriminate.
Qed.

(** A direction label and its opposite undo each other: the neighbour of
    [c] in direction [d] is one cell, one step away on the first or the
    third axis and level on the second, and its neighbour in the opposite
    direction is [c] again. *)
Theorem get_surrounding_block_opposite (c : coords) (d o : string) :
  opposite (VStr d) = Val o ->
  exists n, get_surrounding_block c (VStr d) = Val [n] /\
            get_surrounding_block n (VStr o) = Val [c] /\
            opposite (VStr o) = Val d /\
            n.1.2 = c.1.2 /\
            Z.abs (n.1.1 - c.1.1) + Z.abs (n.2 - c.2) = 1.
Proof.
  destruct c as [[x y] z]. unfold opposite.
  direction_cases d; cbn; intros [= <-].
  - exists (x + 1, y, z). cbn. repeat split; try lia. repeat f_equal; lia.
  - exists (x - 1, y, z). cbn. repeat split; try lia. repeat f_equal; lia.
  - exists (x, y, z - 1). cbn. repeat split; try lia. repeat f_equal; lia.
  - exists (x, y, z + 1). cbn. repeat split; try lia. repeat f_equal; lia.
Qed.

Lemma get_surrounding_block_opposite_witness :
  exists n, get_surrounding_block (3, 4, 5) (VStr "east") = Val [n] /\
            get_surrounding_block n (VStr "west") = Val [(3, 4, 5)].
Proof.
  destruct (get_surrounding_block_opposite (3, 4, 5) "east" "west" eq_refl)
    as (n & H1 & H2 & _).
  exists n. split; [exact H1|exact H2].
Defined.

Lemma cardinal_NoDup (c : coords) : NoDup (c :: cardinal c).
Proof.
  destruct c as [[x y] z]. cbn.
  repeat (apply NoDup_cons; split;
          [rewrite list_elem_of_In; cbn; intros H;
           repeat (destruct H as [H|H]; [injection H; lia|]); exact H|]).
  apply NoDup_nil. exact I.
Qed.

(** With no direction given ([None], or any other falsy value: [''], [0],
    [[]]) the answer is the four neighbours north, south, east, west, which
    are four different cells, none of them [c]. *)
Theorem get_surrounding_block_default (c : coords) :
  (forall v, truthy v = false -> get_surrounding_block c v = Val (cardinal c)) /\
  length (cardinal c) = 4%nat /\
  NoDup (c :: cardinal c).
Proof.
  split; [|split; [destruct c as [[x y] z]; reflexivity|apply cardinal_NoDup]].
  intros v Hv. unfold get_surrounding_block. rewrite Hv.
  destruct c as [[x y] z]. reflexivity.
Qed.

Lemma res_map_length {A B} (f : A -> res B) (l : list A) :
  forall ns, res_map f l = Val ns -> length ns = length l.
Proof.
  induction l as [|a l IH]; cbn; intros ns H.
  - injection H as <-. reflexivity.
  - destruct (f a); cbn in H; [|discriminate].
    destruct (res_map f l) as [bs|]; cbn in H; [|discriminate].
    injection H as <-. cbn. rewrite (IH bs eq_refl). reflexivity.
Qed.

Lemma res_map_Val_iff {A B} (f : A -> res B) (l : list A) :
  (exists ns, res_map f l = Val ns) <-> Forall (fun a => exists b, f a = Val b) l.
Proof.
  induction l as [|a l IH]; cbn.
  - split; [intros _; constructor|eauto].
  - split.
    + intros [ns H]. destruct (f a) as [b|] eqn:Fa; cbn in H; [|discriminate].
      destruct (res_map f l) as [bs|]; cbn in H; [|discriminate].
      constructor; [eauto|]. apply IH. eauto.
    + intros H. apply Forall_cons in H as [[b Hb] Hl].
      apply IH in Hl as [bs Hbs]. rewrite Hb, Hbs. cbn. eauto.
Qed.

Lemma get_surrounding_block_unknown (c : coords) (s : string) :
  s <> ""%string -> ~ known_direction (VStr s) ->
  get_surrounding_block c (VStr s) = Err KeyError.
Proof.
  intros Hs Hk. unfold get_surrounding_block. cbn [truthy].
  destruct (String.eqb_spec s ""); [contradiction|]. cbn [negb].
  destruct (direction_lookup c (VStr s)) as [cell|x] eqn:E.
  - exfalso. apply Hk, (direction_lookup_known c). eauto.
  - destruct c as [[x0 y] z]. cbn in E |- *.
    revert E. direction_cases s; try discriminate. intros [= <-]. reflexivity.
Qed.

Lemma get_surrounding_block_list (c : coords) (l : list value) :
  l <> [] ->
  ((exists ns, get_surrounding_block c (VList l) = Val ns) <->
   Forall known_direction l) /\
  (forall ns, get_surrounding_block c (VList l) = Val ns -> length ns = length l).
Proof.
  intros Hl. unfold get_surrounding_block.
  destruct l as [|a l]; [contradiction|]. cbn [truthy]. split.
  - rewrite res_map_Val_iff. apply Forall_iff. intros k.
    apply direction_lookup_known.
  - apply res_map_length.
Qed.

(** Unknown labels. A non-empty string that is not a direction label makes
    [get_surrounding_block] raise [KeyError]. A non-empty list of
    directions is answered exactly when every element is a direction
    label, and then with one cell per element. *)
Theorem get_surrounding_block_labels (c : coords) :
  (forall s, s <> ""%string -> ~ known_direction (VStr s) ->
     get_surrounding_block c (VStr s) = Err KeyError) /\
  (forall l, l <> [] ->
     ((exists ns, get_surrounding_block c (VList l) = Val ns) <->
      Forall known_direction l) /\
     (forall ns, get_surrounding_block c (VList l) = Val ns ->
                 length ns = length l)).
Proof.
  split.
  - intros s Hs Hk. apply get_surrounding_block_unknown; assumption.
  - intros l Hl. apply get_surrounding_block_list, Hl.
Qed.

(** ** What an update leaves alone *)

Lemma same_but_refl (keys : list string) (b : Block) : same_but keys b b.
Proof. repeat split. Qed.

Lemma same_but_trans (keys : list string) (a b c : Block) :
  same_but keys a b -> same_but keys b c -> same_but keys a c.
Proof.
  intros (A1 & A2 & A3 & A4) (B1 & B2 & B3 & B4).
  repeat split; try congruence. intros key Hk. rewrite B4, A4; auto.
Qed.

Lemma same_but_insert (keys : list string) (b : Block) (key : string) (v : value) :
  In key keys -> same_but keys b (set_state b (<[key := v]> (state b))).
Proof.
  intros Hin. repeat split. intros k Hk. cbn.
  apply lookup_insert_ne. intros <-. exact (Hk Hin).
Qed.

Lemma Wire_loop_frame (ns : list coords) :
  forall (self0 : Block) (e0 : Engine),
  (exists z, state self0 !! "signal" = Some (VInt z) /\ 0 <= z) ->
  match Wire_loop ns self0 e0 with
  | Returned s' e' =>
      same_but ["signal"%string] self0 s' /\ last_updated s' = tick e0 /\
      (exists z, state s' !! "signal" = Some (VInt z) /\ 0 <= z) /\
      blocks e' = blocks e0 /\ tick e' = tick e0
  | Raised _ s' e' =>
      same_but ["signal"%string] self0 s' /\
      last_updated s' = last_updated self0 /\
      (exists z, state s' !! "signal" = Some (VInt z) /\ 0 <= z) /\
      blocks e' = blocks e0 /\ tick e' = tick e0
  end.
Proof.
  induction ns as [|i rest IH]; intros self0 e0 Hsig; cbn [Wire_loop].
  - repeat split. exact Hsig.
  - destruct (get_block e0 i) as [block e1] eqn:G.
    pose proof (cond_schedule_effect e0 i
                  (last_updated block <=? last_updated self0) block e1 G) as C.
    cbv zeta in C.
    set (e2 := if (last_updated block <=? last_updated self0)
                  && negb (BlockType_eqb (id block) AIR)
               then schedule_update e1 i block else e1) in *.
    clearbody e2. destruct C as (Cb & Ct & _).
    destruct (Wire_skips self0 block) as [[|]|x].
    + specialize (IH self0 e2 Hsig).
      destruct (Wire_loop rest self0 e2); rewrite <- Cb, <- Ct; exact IH.
    + destruct Hsig as (z & Hz & Hz0). unfold own_signal. rewrite Hz.
      destruct (add_int (default (VInt 0) (state block !! "signal")) (-1))
        as [s|x]; cbn [res_bind].
      * set (self1 := set_state self0 (<["signal" := VInt (s `max` z)]> (state self0))).
        assert (Hsig1 : exists z', state self1 !! "signal" = Some (VInt z') /\ 0 <= z').
        { exists (s `max` z). split; [apply lookup_insert_eq|lia]. }
        assert (Hsame : same_but ["signal"%string] self0 self1)
          by (apply same_but_insert; left; reflexivity).
        specialize (IH self1 e2 Hsig1).
        destruct (Wire_loop rest self1 e2); rewrite <- Cb, <- Ct;
          destruct IH as (I1 & I2 & I3 & I4 & I5);
          (split; [eapply same_but_trans; eauto|]); rewrite ?I2; auto.
      * repeat split; eauto.
    + repeat split; eauto.
Qed.

(** However [Wire.update] ends, it changes nothing of the wire but the
    ['signal'] entry, which by then holds an integer that is not
    negative; it adds no entry to the block map, removes none, and leaves
    the tick alone. When it returns the wire is stamped with the tick;
    when it raises, [last_updated] is as before. A wire without a
    ['facing'] entry makes it raise [KeyError], after the signal was set
    to 0. *)
Theorem Wire_update_frame (self : Block) (e : Engine) :
  (state self !! "facing" = None ->
   Wire_update self e
   = Raised KeyError (set_state self (<["signal" := VInt 0]> (state self))) e) /\
  match Wire_update self e with
  | Returned s' e' =>
      same_but ["signal"%string] self s' /\ last_updated s' = tick e /\
      (exists z, state s' !! "signal" = Some (VInt z) /\ 0 <= z) /\
      map fst (blocks e') = map fst (blocks e) /\ tick e' = tick e
  | Raised _ s' e' =>
      same_but ["signal"%string] self s' /\
      last_updated s' = last_updated self /\
      (exists z, state s' !! "signal" = Some (VInt z) /\ 0 <= z) /\
      map fst (blocks e') = map fst (blocks e) /\ tick e' = tick e
  end.
Proof.
  unfold Wire_update.
  set (self1 := set_state self (<["signal" := VInt 0]> (state self))).
  assert (Hsame : same_but ["signal"%string] self self1)
    by (apply same_but_insert; left; reflexivity).
  assert (Hsig : exists z, state self1 !! "signal" = Some (VInt z) /\ 0 <= z)
    by (exists 0; split; [apply lookup_insert_eq|lia]).
  assert (Hf : state self1 !! "facing" = state self !! "facing")
    by (cbn; apply lookup_insert_ne; discriminate).
  split.
  - intros Hn. rewrite Hf, Hn. reflexivity.
  - destruct (state self1 !! "facing") as [f|]; [|repeat split; auto; apply Hsame].
    destruct (get_surrounding_block (bcoords self1) f) as [ns|x];
      [|repeat split; auto; apply Hsame].
    pose proof (Wire_loop_frame ns self1 e Hsig) as L.
    destruct (Wire_loop ns self1 e); destruct L as (L1 & L2 & L3 & L4 & L5);
      (split; [eapply same_but_trans; eauto|]); rewrite L4; auto.
Qed.

(** ** What a wire reads *)

Lemma set_state_same (b : Block) : set_state b (state b) = b.
Proof. destruct b; reflexivity. Qed.

Lemma get_block_absent_pair (e : Engine) (c : coords) :
  assoc_get (blocks e) c = None ->
  get_block e c
  = (mkBlock AIR ∅ c (tick e - 1) (uuid_next e),
     mkEngine (tick e) (blocks e) (update_buffer e) (S (uuid_next e))).
Proof. intros H. unfold get_block, new_Air. cbn. rewrite H. reflexivity. Qed.

Lemma get_block_stored_pair (e : Engine) (c : coords) (b : Block) :
  assoc_get (blocks e) c = Some b ->
  get_block e c
  = (b, mkEngine (tick e) (blocks e) (update_buffer e) (S (uuid_next e))).
Proof. intros H. unfold get_block, new_Air. cbn. rewrite H. reflexivity. Qed.

Lemma Wire_loop_alone (ns : list coords) :
  forall (self0 : Block) (e0 : Engine),
  state self0 !! "signal" = Some (VInt 0) ->
  (forall i, In i ns -> assoc_get (blocks e0) i = None) ->
  exists e', Wire_loop ns self0 e0 = Returned (set_last_updated self0 (tick e0)) e' /\
             update_buffer e' = update_buffer e0 /\
             blocks e' = blocks e0 /\ tick e' = tick e0.
Proof.
  induction ns as [|i rest IH]; intros self0 e0 Hsig Hempty; cbn [Wire_loop].
  - eauto.
  - rewrite (get_block_absent_pair e0 i (Hempty i (or_introl eq_refl))).
    cbn [id BlockType_eqb negb]. rewrite andb_false_r.
    unfold Wire_skips, dict_get. cbn [state]. rewrite !lookup_empty.
    cbn [default truthy res_bind add_int]. unfold own_signal. rewrite Hsig.
    cbn [res_bind]. replace (0 + -1) with (-1) by lia.
    change ((-1) `max` 0) with 0.
    rewrite (insert_id (state self0) "signal" (VInt 0) Hsig), set_state_same.
    destruct (IH self0 (mkEngine (tick e0) (blocks e0) (update_buffer e0)
                                 (S (uuid_next e0))) Hsig)
      as (e' & Hrun & Hbuf & Hbl & Ht).
    { intros j Hj. apply Hempty. right. exact Hj. }
    exists e'. cbn [tick blocks update_buffer] in Hrun, Hbuf, Hbl, Ht. auto.
Qed.

(** A wire with nothing at the positions its facing selects: the update
    returns, the signal is 0, the wire is stamped with the tick, and
    nothing is scheduled. *)
Theorem Wire_update_alone (self : Block) (e : Engine) (f : value)
    (ns : list coords) :
  state self !! "facing" = Some f ->
  get_surrounding_block (bcoords self) f = Val ns ->
  (forall i, In i ns -> assoc_get (blocks e) i = None) ->
  exists e',
    Wire_update self e
    = Returned (set_last_updated
                  (set_state self (<["signal" := VInt 0]> (state self))) (tick e)) e' /\
    update_buffer e' = update_buffer e /\ blocks e' = blocks e.
Proof.
  intros Hf Hns Hempty. unfold Wire_update. cbn [state set_state bcoords].
  rewrite lookup_insert_ne by discriminate. rewrite Hf, Hns.
  destruct (Wire_loop_alone ns
              (set_state self (<["signal" := VInt 0]> (state self))) e
              (lookup_insert_eq _ _ _) Hempty) as (e' & Hrun & Hbuf & Hbl & _).
  eauto.
Qed.

Lemma Wire_update_alone_witness :
  exists self' e', Wire_update wire_up world_ahead_pair = Returned self' e' /\
                   state self' !! "signal" = Some (VInt 0).
Proof.
  destruct (Wire_update_alone wire_up world_ahead_pair (VStr "north") [(2, 0, 0)])
    as (e' & Hrun & _).
  - reflexivity.
  - reflexivity.
  - intros i [<-|[]]. reflexivity.
  - eexists _, e'. split; [exact Hrun|]. cbn [state set_last_updated set_state].
    apply lookup_insert_eq.
Defined.

(** A wire that faces one cell holding a block with an integer signal [s]
    and no ['facing']: the update returns and the wire carries
    [max (s - 1) 0], one less than its source at each hop and never below
    0. *)
Theorem Wire_update_reads_source (self : Block) (e : Engine) (d : string)
    (n : coords) (nb : Block) (s : Z) :
  state self !! "facing" = Some (VStr d) ->
  get_surrounding_block (bcoords self) (VStr d) = Val [n] ->
  assoc_get (blocks e) n = Some nb ->
  state nb !! "facing" = None ->
  state nb !! "signal" = Some (VInt s) ->
  exists self' e',
    Wire_update self e = Returned self' e' /\
    state self' !! "signal" = Some (VInt (Z.max (s - 1) 0)) /\
    last_updated self' = tick e.
Proof.
  intros Hf Hns Hnb Hnf Hsig. unfold Wire_update. cbn [state set_state bcoords].
  rewrite lookup_insert_ne by discriminate. rewrite Hf, Hns.
  cbn [Wire_loop]. rewrite (get_block_stored_pair e n nb Hnb).
  unfold Wire_skips, dict_get. rewrite Hnf. cbn [default truthy]. rewrite Hsig.
  cbn [default add_int res_bind]. unfold own_signal. cbn [state set_state].
  rewrite lookup_insert_eq. cbn [res_bind].
  eexists _, _. split; [reflexivity|]. cbn [state set_last_updated set_state].
  split.
  - rewrite lookup_insert_eq. repeat f_equal; lia.
  - destruct (_ && _); [|reflexivity]. cbn [last_updated set_last_updated].
    rewrite (proj1 (proj2 (schedule_update_frame _ _ _))). reflexivity.
Qed.

Lemma Wire_update_reads_source_witness :
  exists self' e',
    Wire_update wire_north world_power_wire = Returned self' e' /\
    state self' !! "signal" = Some (VInt 15).
Proof.
  destruct (Wire_update_reads_source wire_north world_power_wire "north"
              (1, 0, 0) power_source 16)
    as (self' & e' & Hrun & Hsig & _); try reflexivity.
  exists self', e'. split; [exact Hrun|exact Hsig].
Defined.

Lemma fold_max_bound (l : list Z) (B : Z) :
  0 <= B -> (forall x, In x l -> x <= B) -> 0 <= fold_right Z.max 0 l <= B.
Proof.
  intros HB. induction l as [|a l IH]; intros H; cbn; [lia|].
  assert (a <= B) by (apply H; left; reflexivity).
  assert (0 <= fold_right Z.max 0 l <= B) by (apply IH; intros x Hx; apply H; right; exact Hx).
  lia.
Qed.

Lemma signal_of_get_block (e : Engine) (i : coords) :
  all_blocks (fun _ => signal_in_range) e -> signal_of (get_block e i).1 <= 16.
Proof.
  intros Hall. destruct (assoc_get (blocks e) i) as [b|] eqn:E.
  - rewrite (get_block_stored e i b E). specialize (Hall i b E).
    unfold signal_in_range in Hall. unfold signal_of.
    destruct (state b !! "signal") as [[|z| |]|]; try lia; contradiction.
  - rewrite (get_block_absent e i E). unfold signal_of. cbn [state].
    rewrite lookup_empty. lia.
Qed.

Lemma Wire_signal_bounds (self self' : Block) (e e' : Engine) :
  all_blocks (fun _ => signal_in_range) e ->
  Wire_update self e = Returned self' e' ->
  exists z, state self' !! "signal" = Some (VInt z) /\ 0 <= z <= 15.
Proof.
  intros Hall. unfold Wire_update.
  set (self1 := set_state self (<["signal" := VInt 0]> (state self))).
  destruct (state self1 !! "facing") as [f|]; [|discriminate].
  destruct (get_surrounding_block (bcoords self1) f) as [ns|x]; [|discriminate].
  intros Hrun.
  rewrite (Wire_loop_signal self1 e ns self1 e 0 self' e' eq_refl eq_refl
             (lookup_insert_eq _ _ _) Hrun).
  eexists. split; [reflexivity|]. apply fold_max_bound; [lia|].
  intros x Hx. apply in_map_iff in Hx as (b & <- & Hb).
  apply filter_In in Hb as [Hb _]. apply in_map_iff in Hb as (i & <- & _).
  pose proof (signal_of_get_block e i Hall). lia.
Qed.

(** Signals attenuate: when every stored block has a signal from 0 to 16
    (or none) and the update of a wire returns, the wire has a signal
    from 0 to 15, and so it is in range itself. *)
Theorem Wire_update_signal_range (self self' : Block) (e e' : Engine) :
  all_blocks (fun _ => signal_in_range) e ->
  Wire_update self e = Returned self' e' ->
  (exists z, state self' !! "signal" = Some (VInt z) /\ 0 <= z <= 15) /\
  signal_in_range self'.
Proof.
  intros Hall Hrun.
  destruct (Wire_signal_bounds self self' e e' Hall Hrun) as (z & Hz & Hr).
  split; [eauto|]. unfold signal_in_range. rewrite Hz. lia.
Qed.

Lemma world_power_wire_in_range :
  all_blocks (fun _ => signal_in_range) world_power_wire.
Proof.
  intros k b H. unfold world_power_wire in H. cbn [blocks assoc_get] in H.
  repeat match type of H with
         | (if ?c then _ else _) = _ => destruct c
         end; try discriminate; injection H as <-; vm_compute; split; discriminate.
Qed.

Lemma Wire_update_signal_range_witness :
  exists self' e',
    Wire_update wire_north world_power_wire = Returned self' e' /\
    exists z, state self' !! "signal" = Some (VInt z) /\ 0 <= z <= 15.
Proof.
  destruct (Wire_update wire_north world_power_wire) as [s' e'|x s' e'] eqn:U;
    [|vm_compute in U; discriminate].
  exists s', e'. split; [reflexivity|].
  exact (proj1 (Wire_update_signal_range wire_north s' world_power_wire e'
                  world_power_wire_in_range U)).
Defined.

(** ** What every update leaves alone *)

Lemma same_but_weaken (keys keys' : list string) (b b' : Block) :
  (forall k, In k keys -> In k keys') -> same_but keys b b' -> same_but keys' b b'.
Proof.
  intros Hsub (H1 & H2 & H3 & H4).
  split; [exact H1|]. split; [exact H2|]. split; [exact H3|].
  intros key Hk. apply H4. intros Hin. apply Hk, Hsub, Hin.
Qed.

Lemma Wire_loop_uuid (ns : list coords) : forall (self0 : Block) (e0 : Engine),
  match Wire_loop ns self0 e0 with
  | Returned _ e' | Raised _ _ e' => (uuid_next e0 <= uuid_next e')%nat
  end.
Proof.
  induction ns as [|i rest IH]; intros self0 e0; cbn [Wire_loop]; [lia|].
  destruct (get_block e0 i) as [block e1] eqn:G.
  assert (H1 : uuid_next e1 = S (uuid_next e0)).
  { pose proof (get_block_blocks e0 i) as H. rewrite G in H. apply H. }
  set (e2 := if (last_updated block <=? last_updated self0)
                && negb (BlockType_eqb (id block) AIR)
             then schedule_update e1 i block else e1).
  assert (H2 : uuid_next e2 = S (uuid_next e0)).
  { subst e2. destruct (_ && _); [|exact H1].
    rewrite (proj2 (proj2 (schedule_update_frame e1 i block))). exact H1. }
  clearbody e2.
  destruct (Wire_skips self0 block) as [[|]|x]; cbn; try lia.
  - specialize (IH self0 e2). destruct (Wire_loop rest self0 e2); lia.
  - match goal with
    | |- match (match ?m with Val _ => _ | Err _ => _ end) with _ => _ end =>
        destruct m as [m'|x]
    end; [|lia].
    match goal with
    | |- match Wire_loop rest ?s e2 with _ => _ end =>
        specialize (IH s e2); destruct (Wire_loop rest s e2); lia
    end.
Qed.

Lemma Power_loop_uuid (ns : list coords) : forall e0 : Engine,
  (uuid_next e0 <= uuid_next (Power_loop ns e0))%nat.
Proof.
  induction ns as [|i rest IH]; intros e0; cbn [Power_loop]; [lia|].
  destruct (get_block e0 i) as [block e1] eqn:G.
  assert (H1 : uuid_next e1 = S (uuid_next e0)).
  { pose proof (get_block_blocks e0 i) as H. rewrite G in H. apply H. }
  specialize (IH (schedule_if_stale e1 i block)).
  rewrite (proj2 (proj2 (schedule_if_stale_frame e1 i block))) in IH. lia.
Qed.

Lemma Delayer_step_same_but (self input_block : Block) (st : gmap string value) :
  Delayer_step self input_block = Val st ->
  same_but ["signal"%string; "timer"%string] self (set_state self st).
Proof.
  intros H. repeat split. intros key Hk. cbn [state set_state].
  assert (Hs : key <> "signal"%string) by (intros ->; apply Hk; left; reflexivity).
  assert (Ht : key <> "timer"%string)
    by (intros ->; apply Hk; right; left; reflexivity).
  unfold Delayer_step in H.
  destruct (truthy (dict_get (state input_block) "signal")).
  - destruct (if truthy (dict_get (state self) "timer") then _ else _) as [v|];
      cbn [res_bind] in H; [|discriminate].
    destruct v as [|z| |]; cbn [res_bind] in H; try discriminate.
    injection H as <-. destruct (z `max` 0 =? 0).
    + rewrite lookup_insert_ne by congruence. apply lookup_insert_ne. congruence.
    + apply lookup_insert_ne. congruence.
  - injection H as <-. rewrite lookup_insert_ne by congruence.
    apply lookup_delete_ne. congruence.
Qed.

Lemma Delayer_update_leaves_alone (b : Block) (e : Engine) :
  match Delayer_update b e with
  | Returned b' e' | Raised _ b' e' =>
      same_but ["signal"%string; "timer"%string] b b' /\
      blocks e' = blocks e /\ tick e' = tick e /\
      (uuid_next e <= uuid_next e')%nat
  end.
Proof.
  unfold Delayer_update.
  destruct (Delayer_ports b) as [[ic oc]|x];
    [|split; [apply same_but_refl|auto]].
  destruct (get_block e ic) as [input_block e1] eqn:G1.
  destruct (get_block e1 oc) as [output_block e2] eqn:G2.
  assert (H2 : blocks e2 = blocks e /\ tick e2 = tick e /\
               uuid_next e2 = S (S (uuid_next e))).
  { unfold get_block, new_Air in G1, G2.
    injection G1 as _ <-. injection G2 as _ <-. cbn. auto. }
  destruct H2 as (Hb & Ht & Hu).
  destruct (Delayer_blocked b input_block output_block) as [[|]|x];
    try (split; [apply same_but_refl|]; rewrite Hb, Ht, Hu; repeat split; lia).
  destruct (Delayer_step b input_block) as [st|x] eqn:S;
    try (split; [apply same_but_refl|]; rewrite Hb, Ht, Hu; repeat split; lia).
  destruct (schedule_if_stale_frame e2 ic input_block) as (F1 & F2 & F3).
  destruct (schedule_if_stale_frame (schedule_if_stale e2 ic input_block)
              oc output_block) as (K1 & K2 & K3).
  rewrite K1, K2, K3, F1, F2, F3, Hb, Ht, Hu. split; [|repeat split; lia].
  destruct (Delayer_step_same_but b input_block st S) as (A1 & A2 & A3 & A4).
  repeat split; auto.
Qed.

Lemma update_frame_all (b : Block) (e : Engine) :
  match update b e with
  | Returned b' e' | Raised _ b' e' =>
      same_but ["signal"%string; "timer"%string] b b' /\
      blocks e' = blocks e /\ tick e' = tick e /\
      (uuid_next e <= uuid_next e')%nat
  end.
Proof.
  assert (Hw : forall k, In k ["signal"%string] ->
                         In k ["signal"%string; "timer"%string])
    by (intros k [<-|[]]; left; reflexivity).
  unfold update. destruct (id b).
  - (* Wire *)
    unfold Wire_update.
    set (self1 := set_state b (<["signal" := VInt 0]> (state b))).
    assert (Hsame : same_but ["signal"%string; "timer"%string] b self1)
      by (apply same_but_insert; left; reflexivity).
    assert (Hsig : exists z, state self1 !! "signal" = Some (VInt z) /\ 0 <= z)
      by (exists 0; split; [apply lookup_insert_eq|lia]).
    destruct (state self1 !! "facing") as [f|]; [|auto].
    destruct (get_surrounding_block (bcoords self1) f) as [ns|x]; [|auto].
    pose proof (Wire_loop_frame ns self1 e Hsig) as L.
    pose proof (Wire_loop_uuid ns self1 e) as U.
    destruct (Wire_loop ns self1 e); destruct L as (L1 & _ & _ & L4 & L5);
      (split; [eapply same_but_trans; [exact Hsame|];
               eapply same_but_weaken; eauto|]); auto.
  - (* Power *)
    unfold Power_update. rewrite get_surrounding_block_all.
    destruct (Power_loop_effect (cardinal (bcoords b)) e) as (Hb & Ht & _).
    pose proof (Power_loop_uuid (cardinal (bcoords b)) e).
    split; [repeat split|]. auto.
  - apply Delayer_update_leaves_alone.
  - unfold Air_update. split; [apply same_but_refl|auto].
Qed.

(** However the update of a block ends, by returning or by raising, the
    block keeps its class, its coordinates, its identity token and every
    state entry other than ['signal'] and ['timer']; no entry is added to
    the block map, removed from it or moved in it; the tick is as before;
    and the uuid source has not gone back. *)
Theorem update_leaves_alone (b : Block) (e : Engine) :
  match update b e with
  | Returned b' e' | Raised _ b' e' =>
      same_but ["signal"%string; "timer"%string] b b' /\
      map fst (blocks e') = map fst (blocks e) /\ tick e' = tick e /\
      (uuid_next e <= uuid_next e')%nat
  end.
Proof.
  pose proof (update_frame_all b e) as H.
  destruct (update b e) as [b' e'|x b' e']; destruct H as (H1 & H2 & H3 & H4);
    rewrite H2; repeat split; auto; apply H1.
Qed.

(** ** Construction *)

(** A constructor call, however it ends, builds a block of the asked
    class at the asked coordinates whose identity token is the next one
    of the uuid source, and moves the source on; it keeps the state
    entries it was given, except ['signal'] and ['timer']; it does not put
    the block into the block map, and leaves the tick alone. When it
    returns, a Wire or a Power is stamped with the current tick and an Air
    with the tick before. Two constructor calls in a row never hand out
    the same token. *)
Theorem Block_init_fresh (ty : BlockType) (e : Engine)
    (st : gmap string value) (c : coords) :
  match Block_init ty e st c with
  | Returned self e' | Raised _ self e' =>
      id self = ty /\ bcoords self = c /\ gid self = uuid_next e /\
      (uuid_next e < uuid_next e')%nat /\
      blocks e' = blocks e /\ tick e' = tick e /\
      (forall key, key <> "signal"%string -> key <> "timer"%string ->
                   state self !! key = st !! key)
  end /\
  (forall self e', Block_init ty e st c = Returned self e' ->
     (ty = WIRE \/ ty = POWER -> last_updated self = tick e) /\
     (ty = AIR -> last_updated self = tick e - 1) /\
     forall ty' st' c',
       match Block_init ty' e' st' c' with
       | Returned other _ | Raised _ other _ =>
           gid other <> gid self /\ Block_eq self other = false
       end).
Proof.
  unfold Block_init.
  set (self0 := mkBlock ty st c (tick e - 1) (uuid_next e)).
  set (e0 := mkEngine (tick e) (blocks e) (update_buffer e) (S (uuid_next e))).
  assert (Hall : match update self0 e0 with
                 | Returned self e' | Raised _ self e' =>
                     id self = ty /\ bcoords self = c /\ gid self = uuid_next e /\
                     (uuid_next e < uuid_next e')%nat /\
                     blocks e' = blocks e /\ tick e' = tick e /\
                     (forall key, key <> "signal"%string -> key <> "timer"%string ->
                                  state self !! key = st !! key)
                 end).
  { pose proof (update_frame_all self0 e0) as H.
    destruct (update self0 e0) as [s' e'|x s' e'];
      destruct H as ((H1 & H2 & H3 & H4) & Hb & Ht & Hu);
      cbn [uuid_next e0] in Hu;
      (split; [exact H1|]); (split; [exact H2|]); (split; [exact H3|]);
      (split; [lia|]); (split; [exact Hb|]); (split; [exact Ht|]);
      intros key K1 K2; apply H4; intros [<-|[<-|[]]]; congruence. }
  split; [exact Hall|].
  intros self e' Hrun. rewrite Hrun in Hall.
  destruct Hall as (Hid & Hc & Hg & Hu & _).
  destruct (update_effect self0 self e0 e' Hrun)
    as (_ & _ & _ & _ & Hl & Hw & _).
  split; [|split].
  - intros Hty. apply Hw. exact Hty.
  - intros ->. cbn [update id self0 Air_update] in Hrun.
    injection Hrun as <- _. reflexivity.
  - intros ty' st' c'.
    set (o0 := mkBlock ty' st' c' (tick e' - 1) (uuid_next e')).
    set (eo0 := mkEngine (tick e') (blocks e') (update_buffer e')
                         (S (uuid_next e'))).
    pose proof (update_frame_all o0 eo0) as H.
    destruct (update o0 eo0) as [o eo|x o eo];
      destruct H as ((_ & _ & H3 & _) & _); cbn [gid o0] in H3;
      (split; [lia|]); unfold Block_eq;
      apply andb_false_iff; right; apply Nat.eqb_neq; lia.
Qed.

(** ** What a tick keeps *)

Section Keeps.

Variable pop_index : list coords -> nat.
Variable P : coords -> Block -> Prop.
Variable t : Z.

Hypothesis update_keeps :
  forall (e : Engine) (r : coords) (b b' : Block) (e' : Engine),
  tick e = t -> all_blocks P e -> assoc_get (blocks e) r = Some b ->
  update b e = Returned b' e' -> P r b'.

Lemma drain_keeps (fuel : nat) :
  forall (e : Engine) (log : list coords) (e' : Engine) (log' : list coords),
  tick e = t -> all_blocks P e ->
  drain pop_index fuel e log = Finished e' log' ->
  tick e' = t /\ all_blocks P e' /\ map fst (blocks e') = map fst (blocks e).
Proof.
  induction fuel as [|fuel IH]; intros e log e' log' Ht Hall Hrun;
    cbn [drain] in Hrun;
    destruct (pop pop_index (update_buffer e)) as [[r rest]|];
    try discriminate; try (injection Hrun as <- <-; auto).
  cbn [blocks with_buffer] in Hrun.
  destruct (assoc_get (blocks e) r) as [b|] eqn:Hb.
  - destruct (update b (with_buffer e rest)) as [b' e1|x b' e1] eqn:U;
      [|discriminate].
    pose proof (update_keeps (with_buffer e rest) r b b' e1 Ht Hall Hb U) as HP.
    destruct (update_effect b b' _ e1 U) as (_ & _ & Ub & Ut & _).
    cbn [blocks tick with_buffer] in Ub, Ut.
    assert (Hall' : all_blocks P (with_blocks e1 (assoc_set (blocks e1) r b'))).
    { intros k x. cbn [blocks with_blocks].
      rewrite Ub, (assoc_get_set _ r k b b' Hb).
      destruct (coords_eqb r k) eqn:E; [|apply Hall].
      apply coords_eqb_eq in E. subst k. intros [= <-]. exact HP. }
    destruct (IH (with_blocks e1 (assoc_set (blocks e1) r b')) _ _ _
                (eq_trans Ut Ht) Hall' Hrun) as (H1 & H2 & H3).
    split; [exact H1|]. split; [exact H2|].
    rewrite H3. cbn [blocks with_blocks]. rewrite assoc_set_keys, Ub. reflexivity.
  - destruct (IH (with_buffer e rest) _ _ _ Ht Hall Hrun) as (H1 & H2 & H3). auto.
Qed.

Lemma scan_keeps (fuel : nat) (keys : list coords) :
  forall (e : Engine) (log : list coords) (e' : Engine) (log' : list coords),
  tick e = t -> all_blocks P e ->
  scan pop_index fuel keys e log = Finished e' log' ->
  tick e' = t + 1 /\ all_blocks P e' /\ map fst (blocks e') = map fst (blocks e).
Proof.
  induction keys as [|k ks IH]; intros e log e' log' Ht Hall Hrun;
    cbn [scan] in Hrun.
  - injection Hrun as <- <-. cbn. split; [lia|]. split; [exact Hall|reflexivity].
  - destruct (assoc_get (blocks e) k) as [b|]; [|eapply IH; eauto].
    destruct (last_updated b =? tick e); [eapply IH; eauto|].
    destruct (drain pop_index fuel (with_buffer e [k]) log)
      as [e2 log2| |] eqn:D; try discriminate.
    destruct (drain_keeps fuel (with_buffer e [k]) log e2 log2 Ht Hall D)
      as (H1 & H2 & H3).
    destruct (IH _ _ _ _ H1 H2 Hrun) as (K1 & K2 & K3).
    split; [exact K1|]. split; [exact K2|]. rewrite K3, H3. reflexivity.
Qed.

Lemma tick_ahead_keeps (fuel : nat) (e e' : Engine) (log : list coords) :
  tick e = t -> all_blocks P e ->
  tick_ahead pop_index fuel e = Finished e' log ->
  tick e' = t + 1 /\ all_blocks P e' /\ map fst (blocks e') = map fst (blocks e).
Proof. intros Ht Hall Hrun. eapply scan_keeps; eauto. Qed.

End Keeps.

Lemma assoc_get_None_keys (l : list (coords * Block)) (k : coords) :
  assoc_get l k = None <-> ~ In k (map fst l).
Proof.
  induction l as [|[k0 b0] l IH]; cbn.
  - split; auto.
  - destruct (coords_eqb k0 k) eqn:E.
    + apply coords_eqb_eq in E. split; [discriminate|]. intros H. destruct H; auto.
    + apply coords_eqb_neq in E. rewrite IH. split.
      * intros H [H'|H']; auto.
      * intros H H'. apply H. auto.
Qed.

(** A tick that returns moves the counter on by one and never adds,
    removes or reorders an entry of the block map; the block under each
    coordinate keeps its class, coordinates and identity token and every
    state entry other than ['signal'] and ['timer']. *)
Theorem tick_ahead_keeps_blocks (pop_index : list coords -> nat) (fuel : nat)
    (e e' : Engine) (log : list coords) :
  tick_ahead pop_index fuel e = Finished e' log ->
  tick e' = tick e + 1 /\
  map fst (blocks e') = map fst (blocks e) /\
  (forall k, assoc_get (blocks e') k = None <-> assoc_get (blocks e) k = None) /\
  (forall k b', assoc_get (blocks e') k = Some b' ->
     exists b, assoc_get (blocks e) k = Some b /\
               same_but ["signal"%string; "timer"%string] b b').
Proof.
  intros Hrun.
  destruct (tick_ahead_keeps pop_index
              (fun k b' => exists b, assoc_get (blocks e) k = Some b /\
                                     same_but ["signal"%string; "timer"%string] b b')
              (tick e)) with (fuel := fuel) (e := e) (e' := e') (log := log)
    as (Ht & Hall & Hk); auto.
  - intros e1 r b b' e1' _ Hall Hb U.
    destruct (Hall r b Hb) as (b0 & Hb0 & Hsame).
    exists b0. split; [exact Hb0|].
    pose proof (update_frame_all b e1) as F. rewrite U in F.
    eapply same_but_trans; [exact Hsame|apply F].
  - intros k b Hb. exists b. split; [exact Hb|apply same_but_refl].
  - split; [exact Ht|]. split; [exact Hk|]. split; [|exact Hall].
    intros k. rewrite !assoc_get_None_keys, Hk. reflexivity.
Qed.

Lemma tick_ahead_keeps_blocks_witness :
  exists e' log,
    tick_ahead pop_oldest 4 world_power_wire = Finished e' log /\
    map fst (blocks e') = map fst (blocks world_power_wire).
Proof.
  destruct (tick_ahead pop_oldest 4 world_power_wire) as [e' log| |] eqn:T;
    try (vm_compute in T; discriminate).
  exists e', log. split; [reflexivity|].
  exact (proj1 (proj2 (tick_ahead_keeps_blocks pop_oldest 4 world_power_wire
                         e' log T))).
Defined.

Lemma update_keeps_range (b b' : Block) (e e' : Engine) :
  all_blocks (fun _ => signal_in_range) e -> signal_in_range b ->
  update b e = Returned b' e' -> signal_in_range b'.
Proof.
  intros Hall Hb. unfold update. destruct (id b).
  - intros U. destruct (Wire_signal_bounds b b' e e' Hall U) as (z & Hz & Hr).
    unfold signal_in_range. rewrite Hz. lia.
  - unfold Power_update. rewrite get_surrounding_block_all. intros [= <- _].
    exact Hb.
  - unfold Delayer_update.
    destruct (Delayer_ports b) as [[ic oc]|x]; [|discriminate].
    destruct (get_block e ic) as [input_block e1].
    destruct (get_block e1 oc) as [output_block e2].
    destruct (Delayer_blocked b input_block output_block) as [[|]|x];
      [intros [= <- _]; exact Hb| |discriminate].
    destruct (Delayer_step b input_block) as [st|x] eqn:S; [|discriminate].
    intros [= <- _]. unfold signal_in_range. cbn [state set_last_updated set_state].
    unfold Delayer_step in S.
    destruct (truthy (dict_get (state input_block) "signal")).
    + destruct (if truthy (dict_get (state b) "timer") then _ else _) as [v|];
        cbn [res_bind] in S; [|discriminate].
      destruct v as [|z| |]; cbn [res_bind] in S; try discriminate.
      injection S as <-. destruct (z `max` 0 =? 0).
      * rewrite lookup_insert_eq. lia.
      * rewrite lookup_insert_ne by discriminate. exact Hb.
    + injection S as <-. rewrite lookup_insert_eq. lia.
  - unfold Air_update. intros [= <- _]. exact Hb.
Qed.

(** Signals stay in range: when every stored block has a signal from 0 to
    16 (or none) and the tick returns, so has every stored block
    afterwards. *)
Theorem tick_ahead_keeps_signal_range (pop_index : list coords -> nat)
    (fuel : nat) (e e' : Engine) (log : list coords) :
  all_blocks (fun _ => signal_in_range) e ->
  tick_ahead pop_index fuel e = Finished e' log ->
  all_blocks (fun _ => signal_in_range) e'.
Proof.
  intros Hall Hrun.
  destruct (tick_ahead_keeps pop_index (fun _ => signal_in_range) (tick e))
    with (fuel := fuel) (e := e) (e' := e') (log := log) as (_ & H & _); auto.
  intros e1 r b b' e1' _ Hall1 Hb U.
  eapply update_keeps_range; [exact Hall1|exact (Hall1 r b Hb)|exact U].
Qed.

Lemma tick_ahead_keeps_signal_range_witness :
  exists e' log,
    tick_ahead pop_oldest 4 world_power_wire = Finished e' log /\
    all_blocks (fun _ => signal_in_range) e'.
Proof.
  destruct (tick_ahead pop_oldest 4 world_power_wire) as [e' log| |] eqn:T;
    try (vm_compute in T; discriminate).
  exists e', log. split; [reflexivity|].
  exact (tick_ahead_keeps_signal_range pop_oldest 4 world_power_wire e' log
           world_power_wire_in_range T).
Defined.

Lemma tick_ahead_next_well_formed (pop_index : list coords -> nat) (fuel : nat)
    (e e' : Engine) (log : list coords) :
  well_formed e ->
  tick_ahead pop_index fuel e = Finished e' log ->
  well_formed e' /\ tick e' = tick e + 1 /\
  map fst (blocks e') = map fst (blocks e).
Proof.
  intros Hwf Hrun.
  destruct (tick_ahead_keeps pop_index
              (fun k b => bcoords b = k /\ last_updated b <= tick e) (tick e))
    with (fuel := fuel) (e := e) (e' := e') (log := log) as (Ht & Hall & Hk); auto.
  - intros e1 r b b' e1' Ht1 Hall1 Hb U.
    destruct (Hall1 r b Hb) as [Hc Hl].
    destruct (update_effect b b' e1 e1' U) as (_ & Uc & _ & _ & Ul & _).
    split; [congruence|]. destruct Ul as [Ul|[-> _]]; [lia|exact Hl].
  - split; [|auto]. intros k b Hb. destruct (Hall k b Hb) as [Hc Hl].
    split; [exact Hc|lia].
Qed.

Lemma scan_all_stamped (pop_index : list coords -> nat) (fuel : nat)
    (e : Engine) (log : list coords) (keys : list coords) :
  all_stamped e ->
  scan pop_index fuel keys e log = Finished (with_tick e (tick e + 1)) log.
Proof.
  intros Hall. induction keys as [|k ks IH]; [reflexivity|].
  rewrite scan_skip; [exact IH|]. intros b Hb. apply (Hall k b Hb).
Qed.

(** A tick on a world whose blocks are all stamped with the current tick,
    as blocks built during this tick are, and as the empty world is:
    no update is invoked, nothing changes but the counter, and that
    whatever the fuel. *)
Theorem tick_ahead_all_stamped (pop_index : list coords -> nat) (fuel : nat)
    (e : Engine) :
  all_stamped e ->
  tick_ahead pop_index fuel e = Finished (with_tick e (tick e + 1)) [] /\
  (forall k b, assoc_get (blocks e) k = Some b -> last_updated b <> tick e + 1).
Proof.
  intros Hall. split; [apply scan_all_stamped, Hall|].
  intros k b Hb. rewrite (Hall k b Hb). lia.
Qed.

Lemma tick_ahead_all_stamped_witness :
  tick_ahead pop_oldest 0 (add_blocks (Engine_init 0) [power_source])
  = Finished (with_tick (add_blocks (Engine_init 0) [power_source]) 2) [].
Proof.
  refine (proj1 (tick_ahead_all_stamped pop_oldest 0
                   (add_blocks (Engine_init 0) [power_source]) _)).
  intros k b H. unfold add_blocks, Engine_init in H.
  cbn [blocks with_blocks fold_left assoc_put assoc_get bcoords power_source] in H.
  match type of H with (if ?c then _ else _) = _ => destruct c end;
    [|discriminate].
  injection H as <-. reflexivity.
Defined.

(** ** Running ticks *)

Section RunFacts.

Variable pop_index : list coords -> nat.

Lemma Engine_run_step (fuel : nat) (ticks : Z) (e : Engine) (log : list coords) :
  ticks <> 0 ->
  Engine_run pop_index (S fuel) ticks e log
  = match tick_ahead pop_index fuel e with
    | Finished e' log' => Engine_run pop_index fuel (ticks - 1) e' (log ++ log')
    | Crashed x e' log' => Crashed x e' (log ++ log')
    | OutOfFuel => OutOfFuel
    end.
Proof.
  intros H. cbn [Engine_run]. destruct (Z.eqb_spec ticks 0); [contradiction|].
  reflexivity.
Qed.

(** [run] with a count [n >= 0] on a world whose blocks sit under their
    own coordinates and are not stamped ahead of the tick: when it
    returns, the tick counter has gone up by exactly [n], the block map
    has the same coordinates in the same order, and the world is again
    one on which a tick can run. *)
Theorem Engine_run_counts (n : nat) :
  forall (fuel : nat) (e : Engine) (log : list coords) (e' : Engine)
         (log' : list coords),
  well_formed e ->
  Engine_run pop_index fuel (Z.of_nat n) e log = Finished e' log' ->
  tick e' = tick e + Z.of_nat n /\ well_formed e' /\
  map fst (blocks e') = map fst (blocks e).
Proof.
  induction n as [|n IH]; intros fuel e log e' log' Hwf Hrun.
  - destruct fuel; cbn in Hrun; injection Hrun as <- _;
      (split; [lia|]); auto.
  - destruct fuel as [|fuel]; [cbn in Hrun; discriminate|].
    rewrite Engine_run_step in Hrun by lia.
    destruct (tick_ahead pop_index fuel e) as [e1 log1| |] eqn:T;
      try discriminate.
    destruct (tick_ahead_next_well_formed pop_index fuel e e1 log1 Hwf T)
      as (Hwf1 & Ht1 & Hk1).
    replace (Z.of_nat (S n) - 1) with (Z.of_nat n) in Hrun by lia.
    destruct (IH fuel e1 _ e' log' Hwf1 Hrun) as (Ht & Hwf' & Hk).
    split; [lia|]. split; [exact Hwf'|congruence].
Qed.

Lemma Engine_run_negative (fuel : nat) :
  forall (ticks : Z) (e : Engine) (log : list coords),
  ticks < 0 ->
  forall e' log', Engine_run pop_index fuel ticks e log <> Finished e' log'.
Proof.
  induction fuel as [|fuel IH]; intros ticks e log Hneg e' log'; cbn [Engine_run];
    destruct (Z.eqb_spec ticks 0); try lia; [discriminate|].
  destruct (tick_ahead pop_index fuel e); try discriminate.
  apply IH. lia.
Qed.

(** [run] with a count [n >= 0] ends on every such world, whichever
    elements [set.pop] picks: with enough fuel it returns, or an exception
    of an [update] comes out of it. *)
Theorem Engine_run_ends (n : nat) :
  forall (e : Engine) (log : list coords),
  well_formed e ->
  ends (fun fuel => Engine_run pop_index fuel (Z.of_nat n) e log).
Proof.
  induction n as [|n IH]; intros e log Hwf.
  - exists 0%nat, (Finished e log). split; [discriminate|].
    intros fuel' _. destruct fuel'; reflexivity.
  - destruct (scan_terminates pop_index e (map fst (blocks e)) e []
                (world_inv_start e Hwf)) as (f1 & r1 & Hr1 & Hall1).
    fold (tick_ahead pop_index) in Hall1.
    destruct r1 as [e1 log1|x e1 log1|]; [| |contradiction].
    + destruct (tick_ahead_next_well_formed pop_index f1 e e1 log1 Hwf
                  (Hall1 f1 (Nat.le_refl _))) as (Hwf1 & _).
      destruct (IH e1 (log ++ log1) Hwf1) as (f2 & r2 & Hr2 & Hall2).
      exists (S (Nat.max f1 f2)), r2. split; [exact Hr2|].
      intros fuel' Hf. destruct fuel' as [|f]; [lia|].
      rewrite Engine_run_step by lia.
      change (tick_ahead pop_index f e)
        with (scan pop_index f (map fst (blocks e)) e []).
      rewrite Hall1 by lia.
      replace (Z.of_nat (S n) - 1) with (Z.of_nat n) by lia.
      apply Hall2. lia.
    + exists (S f1), (Crashed x e1 (log ++ log1)). split; [discriminate|].
      intros fuel' Hf. destruct fuel' as [|f]; [lia|].
      rewrite Engine_run_step by lia.
      change (tick_ahead pop_index f e)
        with (scan pop_index f (map fst (blocks e)) e []).
      rewrite Hall1 by lia. reflexivity.
Qed.

End RunFacts.

(** [run(0)] returns at once and changes nothing. [run] with a negative
    count, the default being -1, never returns: the counter moves away
    from 0, so the loop goes on until an update raises. *)
Theorem Engine_run_zero_or_negative (pop_index : list coords -> nat) (fuel : nat)
    (e : Engine) (log : list coords) :
  Engine_run pop_index fuel 0 e log = Finished e log /\
  (forall ticks, ticks < 0 ->
     forall e' log', Engine_run pop_index fuel ticks e log <> Finished e' log').
Proof.
  split; [destruct fuel; reflexivity|].
  intros ticks Hneg. apply Engine_run_negative. exact Hneg.
Qed.

Lemma world_power_wire_well_formed : well_formed world_power_wire.
Proof.
  intros k b H. unfold world_power_wire in H. cbn [blocks assoc_get] in H.
  repeat match type of H with
         | (if ?c then _ else _) = _ => destruct c eqn:?
         end; try discriminate;
    injection H as <-; cbn; rewrite <- coords_eqb_eq; split; auto; lia.
Qed.

Lemma Engine_run_counts_witness :
  exists e' log',
    Engine_run pop_oldest 6 2 world_power_wire [] = Finished e' log' /\
    tick e' = tick world_power_wire + 2.
Proof.
  destruct (Engine_run pop_oldest 6 2 world_power_wire []) as [e' log'| |] eqn:R;
    try (vm_compute in R; discriminate).
  exists e', log'. split; [reflexivity|].
  exact (proj1 (Engine_run_counts pop_oldest 2 6 world_power_wire [] e' log'
                  world_power_wire_well_formed R)).
Defined.

Lemma Engine_run_ends_witness :
  ends (fun fuel => Engine_run pop_oldest fuel 3 world_power_wire []).
Proof.
  exact (Engine_run_ends pop_oldest 3 world_power_wire []
           world_power_wire_well_formed).
Defined.

(** ** More on the delayer *)

Lemma Delayer_fed_step_state (self : Block) (e : Engine) (d : nat) :
  fed self e ->
  state self !! "delay" = Some (VInt (Z.of_nat d)) -> timer_ok self ->
  exists self' e' m,
    Delayer_update self e = Returned self' e' /\
    bcoords self' = bcoords self /\
    state self' !! "facing" = state self !! "facing" /\
    state self' !! "delay" = Some (VInt (Z.of_nat d)) /\
    state self' !! "timer" = Some (VInt m) /\ 0 <= m /\
    m = remaining self (Z.of_nat d) - 1 /\
    state self' !! "signal"
    = (if m =? 0 then Some (VInt 16) else state self !! "signal").
Proof.
  intros (i & o & Hn & Hb & Hs) Hd Hok.
  set (m := remaining self (Z.of_nat d) - 1).
  assert (Hm : 0 <= m).
  { subst m. unfold remaining. unfold timer_ok in Hok.
    destruct (state self !! "timer") as [[|t| |]|]; try lia.
    destruct (Z.eqb_spec t 0); lia. }
  assert (Hstep : Delayer_step self i =
            Val (if m =? 0
                 then <["signal" := VInt 16]> (<["timer" := VInt m]> (state self))
                 else <["timer" := VInt m]> (state self))).
  { unfold Delayer_step. rewrite Hs. unfold dict_get.
    subst m. unfold remaining in *. unfold timer_ok in Hok.
    destruct (state self !! "timer") as [[|t| |]|];
      cbn [default from_option Datatypes.id truthy]; try contradiction.
    - destruct (Z.eqb_spec t 0) as [->|Ht]; cbn [negb].
      + rewrite Hd. cbn [res_bind].
        replace (Z.of_nat d `max` 0) with (Z.of_nat d + 1 - 1) by lia. reflexivity.
      + cbn [add_int res_bind].
        replace ((t + -1) `max` 0) with (t - 1) by lia. reflexivity.
    - rewrite Hd. cbn [res_bind].
      replace (Z.of_nat d `max` 0) with (Z.of_nat d + 1 - 1) by lia. reflexivity. }
  destruct (Delayer_update_open self e i o _ Hn Hb Hstep) as [e' He'].
  eexists _, e', m. split; [exact He'|].
  cbn [bcoords state set_last_updated set_state]. split; [reflexivity|].
  destruct (m =? 0).
  - rewrite !lookup_insert_eq.
    rewrite !(lookup_insert_ne _ "signal") by discriminate.
    rewrite !(lookup_insert_ne _ "timer") by discriminate.
    rewrite lookup_insert_eq. auto 10.
  - rewrite !lookup_insert_eq.
    rewrite !(lookup_insert_ne _ "timer") by discriminate. auto 10.
Qed.

Lemma Delayer_fed_run_state (d : nat) (envs : list Engine) :
  forall self : Block,
  Forall (fed self) envs ->
  state self !! "delay" = Some (VInt (Z.of_nat d)) -> timer_ok self ->
  exists self',
    Delayer_updates envs self = Some self' /\ timer_ok self' /\
    (state self !! "signal" = Some (VInt 16) ->
     state self' !! "signal" = Some (VInt 16)) /\
    (remaining self (Z.of_nat d) <= Z.of_nat (length envs) ->
     state self' !! "signal" = Some (VInt 16)).
Proof.
  induction envs as [|e rest IH]; intros self Hfed Hd Hok.
  - exists self. split; [reflexivity|]. split; [exact Hok|]. split; [auto|].
    cbn [length]. unfold remaining. unfold timer_ok in Hok.
    destruct (state self !! "timer") as [[|t| |]|]; try lia.
    destruct (Z.eqb_spec t 0); lia.
  - apply Forall_cons in Hfed as [Hfe Hrest].
    destruct (Delayer_fed_step_state self e d Hfe Hd Hok)
      as (self1 & e1 & m & Hu & Hco & Hfa & Hd1 & Ht1 & Hm0 & Hm & Hsig).
    assert (Hok1 : timer_ok self1) by (unfold timer_ok; rewrite Ht1; exact Hm0).
    assert (Hrest1 : Forall (fed self1) rest).
    { eapply Forall_impl; [exact Hrest|]. intros e0. apply fed_ext; auto. }
    destruct (IH self1 Hrest1 Hd1 Hok1) as (self' & Hrun & Hok' & Hstay & Hfire).
    exists self'. cbn [Delayer_updates]. rewrite Hu.
    split; [exact Hrun|]. split; [exact Hok'|]. split.
    + intros H16. apply Hstay. rewrite Hsig. destruct (m =? 0); auto.
    + intros Hlen. cbn [length] in Hlen.
      destruct (Z.eqb_spec m 0) as [E|E].
      * apply Hstay. rewrite Hsig.
        destruct (Z.eqb_spec m 0); [reflexivity|contradiction].
      * apply Hfire. unfold remaining. rewrite Ht1.
        destruct (Z.eqb_spec m 0); [contradiction|]. lia.
Qed.

(** A delayer with [delay = d] that is fed at every update (the guard lets
    the update through and the input signal is nonzero): every update
    returns; once the signal is 16 it stays 16; and after as many updates
    as are left of its countdown, [d + 1] when none is running, the signal
    is 16 however many more fed updates follow. *)
Theorem Delayer_fires_and_stays (self : Block) (d : nat) (envs : list Engine) :
  state self !! "delay" = Some (VInt (Z.of_nat d)) ->
  timer_ok self ->
  Forall (fed self) envs ->
  exists self',
    Delayer_updates envs self = Some self' /\ timer_ok self' /\
    (state self !! "signal" = Some (VInt 16) ->
     state self' !! "signal" = Some (VInt 16)) /\
    (remaining self (Z.of_nat d) <= Z.of_nat (length envs) ->
     state self' !! "signal" = Some (VInt 16)) /\
    (state self !! "timer" = None -> (d < length envs)%nat ->
     state self' !! "signal" = Some (VInt 16)).
Proof.
  intros Hd Hok Hfed.
  destruct (Delayer_fed_run_state d envs self Hfed Hd Hok)
    as (self' & Hrun & Hok' & Hstay & Hfire).
  exists self'. repeat (split; [assumption|]).
  intros Ht Hlen. apply Hfire. unfold remaining. rewrite Ht. lia.
Qed.

Lemma Delayer_fires_and_stays_witness :
  exists self',
    Delayer_updates [world_power_delayer 2; world_power_delayer 3;
                     world_power_delayer 4; world_power_delayer 5;
                     world_power_delayer 6] delayer_two = Some self' /\
    state self' !! "signal" = Some (VInt 16).
Proof.
  destruct (Delayer_fires_and_stays delayer_two 2
              [world_power_delayer 2; world_power_delayer 3;
               world_power_delayer 4; world_power_delayer 5;
               world_power_delayer 6])
    as (self' & Hrun & _ & _ & _ & Hfire).
  - vm_compute. reflexivity.
  - vm_compute. exact I.
  - repeat constructor; apply fed_power_delayer.
  - exists self'. split; [exact Hrun|]. apply Hfire; [vm_compute; reflexivity|].
    cbn. lia.
Defined.

(** Missing or malformed configuration of a delayer. Whenever
    [Delayer.update] raises, the delayer, the block map and the tick are
    as before. It raises [KeyError] when the state has no ['facing'], when
    ['facing'] is a string that is no direction label, and when a fed
    update finds neither a running countdown nor a ['delay']; it raises
    [TypeError] when ['facing'] is a non-empty list of direction labels. *)
Theorem Delayer_update_errors (self : Block) (e : Engine) :
  (forall x s' e', Delayer_update self e = Raised x s' e' ->
     s' = self /\ blocks e' = blocks e /\ tick e' = tick e) /\
  (state self !! "facing" = None ->
   Delayer_update self e = Raised KeyError self e) /\
  (forall d, state self !! "facing" = Some (VStr d) ->
     ~ known_direction (VStr d) ->
     Delayer_update self e = Raised KeyError self e) /\
  (forall l, state self !! "facing" = Some (VList l) -> l <> [] ->
     Forall known_direction l ->
     Delayer_update self e = Raised TypeError self e) /\
  (fed self e -> state self !! "timer" = None -> state self !! "delay" = None ->
   exists e', Delayer_update self e = Raised KeyError self e').
Proof.
  split; [|split; [|split; [|split]]].
  - intros x s' e' U. pose proof (Delayer_update_cases self e) as H.
    rewrite U in H. exact H.
  - intros Hf. unfold Delayer_update, Delayer_ports. rewrite Hf. reflexivity.
  - intros d Hf Hk. unfold Delayer_update, Delayer_ports. rewrite Hf.
    cbn [res_bind].
    destruct (String.eqb_spec d "") as [->|Hd].
    + destruct (bcoords self) as [[x y] z]. reflexivity.
    + rewrite (get_surrounding_block_unknown _ d Hd Hk). reflexivity.
  - intros l Hf Hl Hk. unfold Delayer_update, Delayer_ports. rewrite Hf.
    cbn [res_bind].
    destruct (get_surrounding_block_list (bcoords self) l Hl) as [Hiff Hlen].
    destruct (proj2 Hiff Hk) as [ns Hns]. rewrite Hns. cbn [res_bind].
    specialize (Hlen ns Hns). destruct ns as [|n ns];
      [destruct l; [contradiction|discriminate]|].
    reflexivity.
  - intros (i & o & Hn & Hb & Hs) Ht Hd.
    unfold Delayer_neighbours in Hn. unfold Delayer_update.
    destruct (Delayer_ports self) as [[ic oc]|x]; cbn in Hn; [|discriminate].
    injection Hn as <- <-. cbn. rewrite Hb.
    unfold Delayer_step. rewrite Hs. unfold dict_get. rewrite Ht, Hd.
    cbn. eauto.
Qed.

(** ** More on persistence *)

(** [save] writes one path and only the version, the block map and the
    tick: loading any other path gives what it gave before; a second
    [save] to the path replaces the first; the pending set of the saving
    engine makes no difference to the file; the engine that [load] builds
    has an empty pending set; and loading a path that holds nothing raises
    [FileNotFoundError]. *)
Theorem save_load_frame (e : Engine) (file : string)
    (fs : gmap string payload) (uuid : nat) :
  (forall file', file' <> file ->
     load_local file' (save e file fs) uuid = load_local file' fs uuid) /\
  (forall e2, save e2 file (save e file fs) = save e2 file fs) /\
  (forall buf, save (with_buffer e buf) file fs = save e file fs) /\
  (forall engine, load_local file (save e file fs) uuid = Val engine ->
     update_buffer engine = [] /\ uuid_next engine = uuid) /\
  (forall file', save e file fs !! file' = None ->
     load file' (save e file fs) uuid = Err FileNotFoundError).
Proof.
  split; [|split; [|split; [|split]]].
  - intros file' Hne. unfold load_local, save.
    rewrite lookup_insert_ne by congruence. reflexivity.
  - intros e2. unfold save. apply insert_insert_eq.
  - intros buf. reflexivity.
  - intros engine. unfold load_local, save. rewrite lookup_insert_eq.
    cbn [p_version]. rewrite tuple_gt_irrefl. intros [= <-]. split; reflexivity.
  - intros file' Hn. unfold load, load_local. rewrite Hn. reflexivity.
Qed.

(** ** The pending set after a tick *)

Section Drains.

Variable pop_index : list coords -> nat.
Variable e0 : Engine.

Lemma scan_drains (fuel : nat) (keys : list coords) :
  forall (e : Engine) (log : list coords) (e' : Engine) (log' : list coords),
  world_inv e0 e log ->
  scan pop_index fuel keys e log = Finished e' log' ->
  update_buffer e' = [] \/
  (log' = log /\ update_buffer e' = update_buffer e /\ blocks e' = blocks e /\
   forall k b, In k keys -> assoc_get (blocks e) k = Some b ->
               last_updated b = tick e).
Proof.
  induction keys as [|k ks IH]; intros e log e' log' Hw Hrun; cbn [scan] in Hrun.
  - injection Hrun as <- <-. right. repeat split. intros k b [].
  - destruct (assoc_get (blocks e) k) as [b|] eqn:Hb.
    + destruct (Z.eqb_spec (last_updated b) (tick e)) as [Hl|Hl].
      * destruct (IH _ _ _ _ Hw Hrun) as [H|(H1 & H2 & H3 & H4)]; [auto|].
        right. repeat split; auto. intros x bx [<-|Hx] Hbx; [congruence|eauto].
      * destruct (drain pop_index fuel (with_buffer e [k]) log)
          as [e2 log2| |] eqn:D; try discriminate.
        assert (Hbi : buffer_inv (with_buffer e [k])).
        { split; [apply NoDup_singleton|]. intros r [<-|[]]. exists b.
          split; [exact Hb|]. cbn [tick with_buffer].
          destruct Hw as (Wt & _ & Wb & _). destruct (Wb k b Hb) as (_ & Hle & _).
          lia. }
        destruct (drain_finished pop_index e0 fuel (with_buffer e [k]) log e2 log2
                    Hw Hbi D) as (Hw2 & Hemp & _).
        destruct (IH _ _ _ _ Hw2 Hrun) as [H|(_ & H2 & _)]; [auto|].
        left. congruence.
    + destruct (IH _ _ _ _ Hw Hrun) as [H|(H1 & H2 & H3 & H4)]; [auto|].
      right. repeat split; auto. intros x bx [<-|Hx] Hbx; [congruence|eauto].
Qed.

End Drains.

(** Cascades drain. On a world whose blocks sit under their own
    coordinates and are not stamped ahead of the tick, when the tick
    returns either the pending set is empty, or no update was invoked at
    all: then every block was stamped already, and the block map and the
    pending set are what they were. *)
Theorem tick_ahead_drains (pop_index : list coords -> nat) (fuel : nat)
    (e e' : Engine) (log : list coords) :
  well_formed e ->
  tick_ahead pop_index fuel e = Finished e' log ->
  update_buffer e' = [] \/
  (log = [] /\ update_buffer e' = update_buffer e /\ blocks e' = blocks e /\
   all_stamped e).
Proof.
  intros Hwf Hrun. unfold tick_ahead in Hrun.
  destruct (scan_drains pop_index e fuel _ _ _ _ _ (world_inv_start e Hwf) Hrun)
    as [H|(H1 & H2 & H3 & H4)]; [left; exact H|].
  right. repeat split; auto.
  intros k b Hb. apply (H4 k b); [|exact Hb].
  eapply assoc_get_In_keys, Hb.
Qed.

Lemma tick_ahead_drains_witness :
  exists e' log,
    tick_ahead pop_oldest 4 world_power_wire = Finished e' log /\
    update_buffer e' = [].
Proof.
  destruct (tick_ahead pop_oldest 4 world_power_wire) as [e' log| |] eqn:T;
    try (vm_compute in T; discriminate).
  exists e', log. split; [reflexivity|].
  destruct (tick_ahead_drains pop_oldest 4 world_power_wire e' log
              world_power_wire_well_formed T) as [H|(Hlog & _)]; [exact H|].
  exfalso. vm_compute in T. rewrite Hlog in T. discriminate.
Defined.

(** * The tick, block by block *)

(** When [Delayer.update] returns, either it went through to the end and
    stamped the delayer, or its guard held: then the delayer and the
    pending set are what they were. *)
Lemma Delayer_update_returned (b b' : Block) (e e' : Engine) :
  Delayer_update b e = Returned b' e' ->
  last_updated b' = tick e \/
  (b' = b /\ update_buffer e' = update_buffer e /\
   exists i o, Delayer_neighbours b e = Val (i, o) /\
               Delayer_blocked b i o = Val true).
Proof.
  unfold Delayer_update, Delayer_neighbours.
  destruct (Delayer_ports b) as [[ic oc]|x]; [|discriminate].
  cbn [res_bind fst snd].
  destruct (get_block e ic) as [i e1] eqn:G1.
  destruct (get_block e1 oc) as [o e2] eqn:G2.
  assert (H2 : tick e2 = tick e /\ update_buffer e2 = update_buffer e).
  { unfold get_block, new_Air in G1, G2.
    injection G1 as _ <-. injection G2 as _ <-. cbn. auto. }
  destruct H2 as [Ht Hbuf].
  destruct (Delayer_blocked b i o) as [[|]|x] eqn:B; [| |discriminate].
  - intros [= <- <-]. right. split; [reflexivity|]. split; [exact Hbuf|].
    exists i, o. auto.
  - destruct (Delayer_step b i) as [st|x]; [|discriminate].
    intros [= <- <-]. left. cbn [last_updated set_last_updated].
    destruct (schedule_if_stale_frame e2 ic i) as (_ & F & _).
    destruct (schedule_if_stale_frame (schedule_if_stale e2 ic i) oc o)
      as (_ & G & _).
    rewrite G, F. exact Ht.
Qed.

(** An update that returns without stamping is the [pass] of an Air block
    or the early [return] of a Delayer that the guard blocks. *)
Lemma update_returned (b b' : Block) (e e' : Engine) :
  update b e = Returned b' e' ->
  last_updated b' = tick e \/
  (b' = b /\ update_buffer e' = update_buffer e /\ (id b = AIR \/ blocked b e)).
Proof.
  intros U.
  destruct (update_effect b b' e e' U) as (_ & _ & _ & _ & Ul & Uw & _).
  destruct (id b) eqn:I.
  - left. apply Uw. auto.
  - left. apply Uw. auto.
  - unfold update in U. rewrite I in U.
    destruct (Delayer_update_returned _ _ _ _ U) as [H|(H1 & H2 & H3)];
      [left; exact H|right].
    split; [exact H1|]. split; [exact H2|]. right. split; [exact I|exact H3].
  - destruct Ul as [H|[H1 H2]]; [left; exact H|right; auto].
Qed.

(** The tick writes no ['facing'] entry, and the guard of a delayer reads
    nothing else of the world: whether a delayer is blocked is the same in
    two worlds that agree on those entries. *)
Lemma facing_at_same (e0 e : Engine) :
  map fst (blocks e) = map fst (blocks e0) ->
  (forall k b, assoc_get (blocks e) k = Some b ->
     exists b0, assoc_get (blocks e0) k = Some b0 /\
                same_but ["signal"%string; "timer"%string] b0 b) ->
  forall c, facing_at e c = facing_at e0 c.
Proof.
  intros Hk HF c. unfold facing_at.
  destruct (assoc_get (blocks e) c) as [b|] eqn:E.
  - destruct (HF c b E) as (b0 & E0 & _ & _ & _ & Hs).
    rewrite (get_block_stored e c b E), (get_block_stored e0 c b0 E0).
    unfold dict_get. rewrite Hs; [reflexivity|].
    intros [H|[H|[]]]; discriminate.
  - assert (E0 : assoc_get (blocks e0) c = None).
    { apply assoc_get_None_keys. rewrite <- Hk. apply assoc_get_None_keys, E. }
    rewrite (get_block_absent e c E), (get_block_absent e0 c E0). reflexivity.
Qed.

Lemma facing_at_second (e : Engine) (ic oc : coords) :
  dict_get (state (get_block (get_block e ic).2 oc).1) "facing" = facing_at e oc.
Proof.
  unfold facing_at.
  destruct (get_block_view (get_block e ic).2 e oc) as (-> & _).
  - apply get_block_blocks.
  - reflexivity.
Qed.

Lemma Delayer_neighbours_ports (self : Block) (e : Engine) (i o : Block) :
  Delayer_neighbours self e = Val (i, o) ->
  exists ic oc, Delayer_ports self = Val (ic, oc) /\
    i = (get_block e ic).1 /\ o = (get_block (get_block e ic).2 oc).1.
Proof.
  unfold Delayer_neighbours.
  destruct (Delayer_ports self) as [[ic oc]|x]; [|discriminate].
  cbn [res_bind fst snd].
  destruct (get_block e ic) as [i' e1] eqn:G1. cbn [fst snd].
  destruct (get_block e1 oc) as [o' e2] eqn:G2. cbn [fst snd].
  intros [= <- <-]. exists ic, oc. split; [reflexivity|].
  rewrite G1. cbn [fst snd]. rewrite G2. auto.
Qed.

Lemma blocked_ext (e1 e2 : Engine) (b1 b2 : Block) :
  id b2 = id b1 -> bcoords b2 = bcoords b1 ->
  state b2 !! "facing" = state b1 !! "facing" ->
  (forall c, facing_at e1 c = facing_at e2 c) ->
  blocked b1 e1 -> blocked b2 e2.
Proof.
  intros Hid Hc Hf He (I & i & o & Hn & Hb).
  split; [congruence|].
  destruct (Delayer_neighbours_ports b1 e1 i o Hn) as (ic & oc & Hp & -> & ->).
  assert (Hp2 : Delayer_ports b2 = Val (ic, oc))
    by (rewrite <- Hp; unfold Delayer_ports; rewrite Hc, Hf; reflexivity).
  exists (get_block e2 ic).1, (get_block (get_block e2 ic).2 oc).1. split.
  - unfold Delayer_neighbours. rewrite Hp2. cbn [res_bind fst snd].
    destruct (get_block e2 ic) as [i' e1']. cbn [fst snd].
    destruct (get_block e1' oc) as [o' e2']. reflexivity.
  - unfold Delayer_blocked, Delayer_disallowed in *.
    rewrite !facing_at_second in *.
    change (dict_get (state (get_block e2 ic).1) "facing") with (facing_at e2 ic).
    change (dict_get (state (get_block e1 ic).1) "facing") with (facing_at e1 ic) in Hb.
    rewrite <- !He, Hc. exact Hb.
Qed.

(** ** One step of the pending-set loop, block by block *)

Lemma drain_step_history (e0 e : Engine) (log rest keys : list coords)
    (r : coords) (b b' : Block) (e1 : Engine) :
  world_inv e0 e log -> buffer_inv e ->
  history_inv e0 e log -> air_pending e log keys -> air_unvisited e log keys ->
  In r (update_buffer e) -> ~ In r rest ->
  (forall x, In x rest -> In x (update_buffer e)) ->
  assoc_get (blocks e) r = Some b ->
  update b (with_buffer e rest) = Returned b' e1 ->
  let e' := with_blocks e1 (assoc_set (blocks e1) r b') in
  history_inv e0 e' (log ++ [r]) /\ air_pending e' (log ++ [r]) keys /\
  air_unvisited e' (log ++ [r]) keys /\
  (forall k, through e0 e k -> through e0 e' k) /\ through e0 e' r.
Proof.
  intros (Wt & Wk & Wb & _) (Bn & Bs) (HF & HO & HA) Hap Hau Hr Hnr Hsub Hb Hu e'.
  destruct (update_effect b b' (with_buffer e rest) e1 Hu)
    as (Ui & Uc & Ub & Ut & _ & _ & _ & Unew & _).
  pose proof (update_frame_all b (with_buffer e rest)) as Hfr. rewrite Hu in Hfr.
  destruct Hfr as (Hsame & _).
  pose proof (update_returned b b' _ _ Hu) as Hret.
  cbn [blocks tick update_buffer with_buffer] in Ub, Ut, Unew, Hret.
  destruct (Wb r b Hb) as (Hbc & _ & _).
  destruct (Bs r Hr) as (b_ & Hb_ & Hblt). rewrite Hb in Hb_.
  injection Hb_ as <-.
  assert (Hget : forall k, assoc_get (blocks e') k
                 = if coords_eqb r k then Some b' else assoc_get (blocks e) k).
  { intros k. subst e'. cbn [blocks with_blocks]. rewrite Ub.
    apply assoc_get_set with (b := b). exact Hb. }
  assert (Hbuf' : update_buffer e' = update_buffer e1) by reflexivity.
  assert (Hfac : forall c, facing_at (with_buffer e rest) c = facing_at e0 c)
    by (apply facing_at_same; [exact Wk|exact HF]).
  assert (Hfb : state b' !! "facing" = state b !! "facing").
  { destruct Hsame as (_ & _ & _ & Hs). apply Hs. intros [H|[H|[]]]; discriminate. }
  assert (Hbl : blocked b' e0 -> blocked b e0)
    by (apply blocked_ext; auto).
  assert (Hcur : blocked b (with_buffer e rest) -> blocked b e0)
    by (apply blocked_ext; auto).
  split; [|split; [|split; [|split]]].
  - (* history_inv *)
    split; [|split].
    + intros k bk. rewrite Hget. destruct (coords_eqb r k) eqn:E; [|apply HF].
      apply coords_eqb_eq in E. subst k. intros [= <-].
      destruct (HF r b Hb) as (b0 & E0 & S0). exists b0.
      split; [exact E0|]. eapply same_but_trans; eauto.
    + intros k bk. rewrite Hget, updates_of_snoc, (coords_eqb_sym k r).
      destruct (coords_eqb r k) eqn:E.
      * apply coords_eqb_eq in E. subst k. intros [= <-] Hna Hnb.
        assert (Hna' : id b <> AIR) by congruence.
        assert (Hnb' : ~ blocked b e0) by (intros H; apply Hnb; revert H;
          apply blocked_ext; auto).
        destruct (HO r b Hb Hna' Hnb') as [_ Hz].
        rewrite Hz by (rewrite <- Wt; lia).
        destruct Hret as [Hs|(Heq & _ & [Ha|Hc])].
        -- split; [lia|]. intros Hne. exfalso. apply Hne. rewrite Hs. exact Wt.
        -- contradiction.
        -- exfalso. apply Hnb', Hcur, Hc.
      * intros Hk Hna Hnb. rewrite Nat.add_0_r. apply HO; auto.
    + intros k bk. rewrite Hget, updates_of_snoc, (coords_eqb_sym k r).
      destruct (coords_eqb r k) eqn:E.
      * apply coords_eqb_eq in E. subst k. intros [= <-] Ha. rewrite Ui in Ha.
        destruct (Hap r b Hr Hb Ha) as [Hz _]. rewrite Hz. lia.
      * intros Hk Ha. rewrite Nat.add_0_r. eapply HA; eauto.
  - (* air_pending *)
    intros x bx Hx. rewrite Hbuf' in Hx.
    rewrite Hget, updates_of_snoc, (coords_eqb_sym x r).
    destruct (Unew x Hx) as [Hin|(Hne & nb & Hnb & Hid & _)].
    + assert (E : coords_eqb r x = false)
        by (apply coords_eqb_neq; intros <-; exact (Hnr Hin)).
      rewrite E. intros Hbx Ha. rewrite Nat.add_0_r.
      apply (Hap x bx (Hsub x Hin) Hbx Ha).
    + assert (E : coords_eqb r x = false)
        by (apply coords_eqb_neq; congruence).
      rewrite E. intros Hbx Ha. cbn [blocks with_buffer] in Hnb.
      rewrite Hbx in Hnb. injection Hnb as <-. contradiction.
  - (* air_unvisited *)
    intros x bx Hx. rewrite Hget, updates_of_snoc, (coords_eqb_sym x r).
    destruct (coords_eqb r x) eqn:E.
    + apply coords_eqb_eq in E. subst x. intros [= <-] Ha. rewrite Ui in Ha.
      destruct (Hap r b Hr Hb Ha) as [_ Hn]. contradiction.
    + intros Hbx Ha. rewrite Nat.add_0_r. eapply Hau; eauto.
  - (* through is stable *)
    intros k Hk bk. rewrite Hget. destruct (coords_eqb r k) eqn:E; [|apply Hk].
    apply coords_eqb_eq in E. subst k. intros [= <-].
    destruct Hret as [Hs|(Heq & _)]; [left; rewrite Hs; exact Wt|].
    rewrite Heq. apply Hk, Hb.
  - (* the tick is through with the block just updated *)
    intros bk. rewrite Hget, coords_eqb_refl. intros [= <-].
    destruct Hret as [Hs|(Heq & _ & [Ha|Hc])].
    + left. rewrite Hs. exact Wt.
    + right. left. congruence.
    + right. right. rewrite Heq. apply Hcur, Hc.
Qed.

(** ** The loops of the tick, block by block *)

Section TickHistory.

Variable pop_index : list coords -> nat.
Variable e0 : Engine.

Lemma drain_history (keys : list coords) (fuel : nat) :
  forall (e : Engine) (log : list coords) (e' : Engine) (log' : list coords),
  world_inv e0 e log -> buffer_inv e -> history_inv e0 e log ->
  air_pending e log keys -> air_unvisited e log keys ->
  drain pop_index fuel e log = Finished e' log' ->
  world_inv e0 e' log' /\ history_inv e0 e' log' /\
  air_unvisited e' log' keys /\
  (forall k, through e0 e k -> through e0 e' k) /\
  (forall r, In r (update_buffer e) -> through e0 e' r).
Proof.
  induction fuel as [|fuel IH]; intros e log e' log' Hw Hbi Hh Hap Hau Hrun.
  - cbn [drain] in Hrun.
    destruct (pop pop_index (update_buffer e)) as [[r rest]|] eqn:P;
      [discriminate|].
    injection Hrun as <- <-. apply pop_None in P. rewrite P.
    split; [exact Hw|]. split; [exact Hh|]. split; [exact Hau|].
    split; [auto|]. intros r [].
  - cbn [drain] in Hrun.
    destruct (pop pop_index (update_buffer e)) as [[r rest]|] eqn:P.
    + destruct (pop_Some pop_index _ _ _ P) as (Hr & Hsub & Hsup & Hnd & _).
      destruct (Hnd (proj1 Hbi)) as [Hnr Hnd'].
      destruct (proj2 Hbi r Hr) as (b & Hb & Hlt).
      cbn [blocks with_buffer] in Hrun. rewrite Hb in Hrun.
      destruct (update b (with_buffer e rest)) as [b' e1|x b' e1] eqn:U;
        [|discriminate].
      destruct (drain_step_inv e0 e log rest r b b' e1 Hw Hbi Hr Hnr Hnd' Hsub Hb U)
        as (Hw' & Hbi' & _ & _ & Hrest & _).
      destruct (drain_step_history e0 e log rest keys r b b' e1
                  Hw Hbi Hh Hap Hau Hr Hnr Hsub Hb U)
        as (Hh' & Hap' & Hau' & Hst & Hsr).
      destruct (IH _ _ _ _ Hw' Hbi' Hh' Hap' Hau' Hrun)
        as (Hw'' & Hh'' & Hau'' & Hst' & Hall).
      split; [exact Hw''|]. split; [exact Hh''|]. split; [exact Hau''|].
      split; [auto|].
      intros x Hx. destruct (Hsup x Hx) as [->|Hx'];
        [apply Hst', Hsr|apply Hall, Hrest, Hx'].
    + injection Hrun as <- <-. apply pop_None in P. rewrite P.
      split; [exact Hw|]. split; [exact Hh|]. split; [exact Hau|].
      split; [auto|]. intros r [].
Qed.

Lemma scan_history (fuel : nat) (keys : list coords) :
  forall (e : Engine) (log : list coords) (e' : Engine) (log' : list coords),
  NoDup keys ->
  world_inv e0 e log -> history_inv e0 e log -> air_unvisited e log keys ->
  scan pop_index fuel keys e log = Finished e' log' ->
  exists e1, e' = with_tick e1 (tick e1 + 1) /\ world_inv e0 e1 log' /\
    history_inv e0 e1 log' /\
    (forall k, through e0 e k -> through e0 e1 k) /\
    (forall k, In k keys -> through e0 e1 k).
Proof.
  induction keys as [|k ks IH]; intros e log e' log' Hnd Hw Hh Hau Hrun;
    cbn [scan] in Hrun.
  - injection Hrun as <- <-. exists e.
    split; [reflexivity|]. split; [exact Hw|]. split; [exact Hh|].
    split; [auto|]. intros x [].
  - apply NoDup_cons in Hnd as [Hk Hnd]. rewrite list_elem_of_In in Hk.
    assert (Hau' : air_unvisited e log ks)
      by (intros x bx Hx; apply Hau; right; exact Hx).
    destruct (assoc_get (blocks e) k) as [b|] eqn:Hb.
    + destruct (Z.eqb_spec (last_updated b) (tick e)) as [Hl|Hl].
      * destruct (IH _ _ _ _ Hnd Hw Hh Hau' Hrun) as (e1 & -> & Hw1 & Hh1 & Hst & Hall).
        exists e1. split; [reflexivity|]. split; [exact Hw1|].
        split; [exact Hh1|]. split; [exact Hst|]. intros x [<-|Hx]; [|auto].
        apply Hst. intros b0 Hb0. rewrite Hb in Hb0. injection Hb0 as <-.
        left. rewrite Hl. apply Hw.
      * destruct (drain pop_index fuel (with_buffer e [k]) log)
          as [e2 log2| |] eqn:D; try discriminate.
        assert (Hbi : buffer_inv (with_buffer e [k])).
        { split; [apply NoDup_singleton|]. intros r [<-|[]]. exists b.
          split; [exact Hb|]. cbn [tick with_buffer].
          destruct Hw as (Wt & _ & Wb & _). destruct (Wb k b Hb) as (_ & Hle & _).
          lia. }
        assert (Hap : air_pending (with_buffer e [k]) log ks).
        { intros x bx [<-|[]] Hbx Ha. split; [|exact Hk].
          apply (Hau k bx); [left; reflexivity|exact Hbx|exact Ha]. }
        destruct (drain_history ks fuel (with_buffer e [k]) log e2 log2
                    Hw Hbi Hh Hap Hau' D)
          as (Hw2 & Hh2 & Hau2 & Hst2 & Hk2).
        destruct (IH _ _ _ _ Hnd Hw2 Hh2 Hau2 Hrun)
          as (e1 & -> & Hw1 & Hh1 & Hst & Hall).
        exists e1. split; [reflexivity|]. split; [exact Hw1|].
        split; [exact Hh1|]. split.
        -- intros x Hx. apply Hst, Hst2, Hx.
        -- intros x [<-|Hx]; [|auto]. apply Hst, Hk2. left; reflexivity.
    + destruct (IH _ _ _ _ Hnd Hw Hh Hau' Hrun) as (e1 & -> & Hw1 & Hh1 & Hst & Hall).
      exists e1. split; [reflexivity|]. split; [exact Hw1|].
      split; [exact Hh1|]. split; [exact Hst|]. intros x [<-|Hx]; [|auto].
      apply Hst. intros b0 Hb0. rewrite Hb in Hb0. discriminate.
Qed.

End TickHistory.

Lemma history_inv_start (e : Engine) : history_inv e e [].
Proof.
  split; [|split].
  - intros k b Hb. exists b. split; [exact Hb|apply same_but_refl].
  - intros r b _ _ _. cbn. split; [lia|reflexivity].
  - intros r b _ _. cbn. lia.
Qed.

(** C1, as the code has it. Take a world whose block map has one entry per
    coordinate, every block stored under its own coordinates and none
    stamped with a later tick, and a [tick_ahead] that returns. The tick
    counter is one more. Every stored block is stamped with the tick that
    ran, except an Air block, whose [update] is [pass], and a Delayer that
    the guard of [Delayer.update] blocks in that world, whose update takes
    the early [return]: such a block keeps the [last_updated] it had. And
    the [update] of every stored block other than such a blocked Delayer
    was invoked at most once. *)
Theorem tick_ahead_stamps (pop_index : list coords -> nat) (fuel : nat)
    (e e' : Engine) (log : list coords) :
  well_formed e -> NoDup (map fst (blocks e)) ->
  tick_ahead pop_index fuel e = Finished e' log ->
  tick e' = tick e + 1 /\
  (forall k b', assoc_get (blocks e') k = Some b' ->
     last_updated b' = tick e \/
     ((id b' = AIR \/ blocked b' e) /\
      exists b, assoc_get (blocks e) k = Some b /\
                last_updated b' = last_updated b)) /\
  (forall k b', assoc_get (blocks e') k = Some b' ->
     ~ blocked b' e -> (updates_of log k <= 1)%nat).
Proof.
  intros Hwf Hnd Hrun. unfold tick_ahead in Hrun.
  assert (Hau : air_unvisited e [] (map fst (blocks e)))
    by (intros x b _ _ _; reflexivity).
  destruct (scan_history pop_index e fuel _ _ _ _ _ Hnd (world_inv_start e Hwf)
              (history_inv_start e) Hau Hrun)
    as (e1 & -> & (Wt & Wk & Wb & _) & (_ & HO & HA) & _ & Hall).
  cbn [tick blocks with_tick]. split; [lia|]. split.
  - intros k b' Hb'.
    assert (Hk : In k (map fst (blocks e)))
      by (rewrite <- Wk; eapply assoc_get_In_keys, Hb').
    destruct (Wb k b' Hb') as (_ & _ & [H'|H']); [left; exact H'|].
    destruct (Hall k Hk b' Hb') as [H|H]; [left; exact H|].
    right. split; [exact H|]. exists b'. auto.
  - intros k b' Hb' Hnb. destruct (id b') eqn:I.
    + apply (HO k b' Hb'); [congruence|exact Hnb].
    + apply (HO k b' Hb'); [congruence|exact Hnb].
    + apply (HO k b' Hb'); [congruence|exact Hnb].
    + apply (HA k b' Hb' I).
Qed.

Lemma tick_ahead_stamps_witness :
  exists e' log,
    tick_ahead pop_oldest 4 world_blocked = Finished e' log /\
    tick e' = tick world_blocked + 1 /\
    (forall k b', assoc_get (blocks e') k = Some b' ->
       last_updated b' = tick world_blocked \/
       ((id b' = AIR \/ blocked b' world_blocked) /\
        exists b, assoc_get (blocks world_blocked) k = Some b /\
                  last_updated b' = last_updated b)) /\
    (forall k b', assoc_get (blocks e') k = Some b' ->
       ~ blocked b' world_blocked -> (updates_of log k <= 1)%nat).
Proof.
  eexists _, _. split; [vm_compute; reflexivity|].
  refine (tick_ahead_stamps pop_oldest 4 world_blocked _ _
            world_blocked_well_formed _ _).
  - apply (bool_decide_unpack _). vm_compute. reflexivity.
  - vm_compute. reflexivity.
Defined.
